(** * searchfox-cli, Python layer: the code analyzer example and the package wrappers

    A shallow embedding of [python/examples/code_analyzer.py]
    (class [MozillaCodeAnalyzer]) and of [python/searchfox/__init__.py].

    - Python [str] is [string]; a character is a code point below 256.
    - Python [int] is [Z].
    - A search result is the tuple [(path, line_num, line)].
    - [SearchfoxClient] is a compiled extension module: its [search] method
      is a parameter of the development, a function from the keyword
      arguments of the call to either a list of results or an exception.
    - Every analyzer method runs in a small monad that threads the list of
      requests sent to the client so far and propagates exceptions, the way
      the Python code does (it has no [try]).
    - The recursive method takes the room that the interpreter's recursion
      limit leaves for nested calls, and ends in [RecursionError] where
      that room does not suffice. *)

From Stdlib Require Import ZArith Ascii String Lia Sorted.
From stdpp Require Import base option list gmap sets strings fin_maps.

Local Open Scope string_scope.
Local Open Scope Z_scope.
Local Open Scope list_scope.

#[local] Set Warnings "-clear-no-such-hyp".

(** ** Strings *)

(** Code point of a character. *)
Definition code (c : ascii) : N := N_of_ascii c.

(** Whitespace in the sense of [str.isspace], which is what both [str.strip()]
    and the class [\s] of a [str] pattern use. *)
Definition is_space (c : ascii) : bool :=
  let n := code c in
  ((9 <=? n) && (n <=? 13) || (28 <=? n) && (n <=? 32)
   || (n =? 133) || (n =? 160))%N.

(** The class [\w] of a [str] pattern: alphanumeric code points and the
    underscore. *)
Definition is_word (c : ascii) : bool :=
  let n := code c in
  ((48 <=? n) && (n <=? 57) || (65 <=? n) && (n <=? 90) || (n =? 95)
   || (97 <=? n) && (n <=? 122)
   || (n =? 170) || (n =? 178) || (n =? 179) || (n =? 181) || (n =? 185)
   || (n =? 186) || (188 <=? n) && (n <=? 190)
   || (192 <=? n) && (n <=? 214) || (216 <=? n) && (n <=? 246)
   || (248 <=? n))%N.

(** [s.startswith(p)], returning the rest of [s]. *)
Fixpoint strip_prefix (p s : string) : option string :=
  match p, s with
  | EmptyString, _ => Some s
  | String a p', String b s' =>
      if Ascii.eqb a b then strip_prefix p' s' else None
  | String _ _, EmptyString => None
  end.

(** [needle in hay]. *)
Fixpoint contains (needle hay : string) : bool :=
  match strip_prefix needle hay with
  | Some _ => true
  | None =>
      match hay with
      | String _ hay' => contains needle hay'
      | EmptyString => false
      end
  end.

(** [s.split('/')[0]]. *)
Fixpoint split_slash_head (s : string) : string :=
  match s with
  | EmptyString => EmptyString
  | String c s' =>
      if Ascii.eqb c "/"%char then EmptyString
      else String c (split_slash_head s')
  end.

Fixpoint lstrip (s : string) : string :=
  match s with
  | String c s' => if is_space c then lstrip s' else s
  | EmptyString => EmptyString
  end.

Fixpoint rstrip (s : string) : string :=
  match s with
  | String c s' =>
      match rstrip s' with
      | EmptyString => if is_space c then EmptyString else String c EmptyString
      | r => String c r
      end
  | EmptyString => EmptyString
  end.

(** [s.strip()]. *)
Definition strip (s : string) : string := rstrip (lstrip s).

(** ** The pattern [class\s+(\w+)] *)

(** The longest run of word characters at the head of [s]. *)
Fixpoint word_run (s : string) : string :=
  match s with
  | String c s' => if is_word c then String c (word_run s') else EmptyString
  | EmptyString => EmptyString
  end.

(** [(\w+)] at the head of [s]: the group, when it is not empty. *)
Definition match_word (s : string) : option string :=
  match word_run s with
  | EmptyString => None
  | w => Some w
  end.

(** The rest of [\s+(\w+)] once one whitespace character has been taken:
    greedily take more, and fall back to the group where that fails. *)
Fixpoint match_spaces_word (s : string) : option string :=
  match s with
  | String c s' =>
      if is_space c then
        match match_spaces_word s' with
        | Some w => Some w
        | None => match_word s
        end
      else match_word s
  | EmptyString => None
  end.

(** The whole pattern anchored at the head of [s]. *)
Definition match_class_at (s : string) : option string :=
  match strip_prefix "class" s with
  | Some (String c rest) =>
      if is_space c then match_spaces_word rest else None
  | _ => None
  end.

(** [re.search(r'class\s+(\w+)', line)], reduced to [match.group(1)]:
    the leftmost match. *)
Fixpoint re_search_class (line : string) : option string :=
  match match_class_at line with
  | Some w => Some w
  | None =>
      match line with
      | String _ line' => re_search_class line'
      | EmptyString => None
      end
  end.

(** ** The client *)

(** The keyword arguments of [SearchfoxClient.search]. *)
Record SearchArgs := mkSearchArgs {
  q_query : option string;
  q_path : option string;
  q_case : bool;
  q_regexp : bool;
  q_limit : Z;
  q_context : option Z;
  q_symbol : option string;
  q_id : option string;
  q_cpp : bool;
  q_c_lang : bool;
  q_webidl : bool;
  q_js : bool
}.

#[global] Instance SearchArgs_eq_dec : EqDecision SearchArgs.
Proof. solve_decision. Defined.

(** The defaults of the keyword arguments. *)
Definition search_defaults : SearchArgs :=
  {| q_query := None; q_path := None; q_case := false; q_regexp := false;
     q_limit := 50; q_context := None; q_symbol := None; q_id := None;
     q_cpp := false; q_c_lang := false; q_webidl := false; q_js := false |}.

(** [(path, line_num, line)] *)
Definition MatchRecord : Type := string * Z * string.

(** [(path, line_num)] *)
Definition Key : Type := string * Z.

(** [(result[0], result[1])] *)
Definition key_of (result : MatchRecord) : Key := (result.1.1, result.1.2).

(** A Python exception, by its message. *)
Definition Exn : Type := string.

(** What a call of a client method does: return or raise. *)
Inductive Response (A : Type) : Type :=
  | Ok (a : A)
  | Err (e : Exn).
Arguments Ok {A} a.
Arguments Err {A} e.

Definition SearchFn : Type := SearchArgs → Response (list MatchRecord).

(** ** The monad of the analyzer methods *)

(** A run ends with a value, with an exception that a client method has
    raised, or with the [RecursionError] that the interpreter raises when
    calls nest deeper than its recursion limit allows.  All of them leave
    every enclosing call, as the code catches nothing. *)
Inductive Outcome (A : Type) : Type :=
  | Done (a : A)
  | Raised (e : Exn)
  | RecursionError.
Arguments Done {A} a.
Arguments Raised {A} e.
Arguments RecursionError {A}.

(** The requests sent so far, oldest first. *)
Definition Log : Type := list SearchArgs.

Definition M (A : Type) : Type := Log → Outcome A * Log.

Definition ret {A} (a : A) : M A := λ log, (Done a, log).

Definition bind {A B} (m : M A) (f : A → M B) : M B :=
  λ log,
    match m log with
    | (Done a, log') => f a log'
    | (Raised e, log') => (Raised e, log')
    | (RecursionError, log') => (RecursionError, log')
    end.

Definition recursion_error {A} : M A := λ log, (RecursionError, log).

Notation "'let!' x ':=' m 'in' k" := (bind m (λ x, k))
  (at level 10, x name, m at level 100, k at level 200,
   format "'[v' 'let!'  x  :=  m  'in'  '/' k ']'").

(** The outcome and the requests of a run from an empty log. *)
Definition result {A} (m : M A) : Outcome A := (m []).1.
Definition requests {A} (m : M A) : Log := (m []).2.

(** [for x in xs: acc.append(body(x))] *)
Fixpoint for_append {A B} (body : A → M B) (xs : list A) (acc : list B)
  : M (list B) :=
  match xs with
  | [] => ret acc
  | x :: xs' => let! b := body x in for_append body xs' (acc ++ [b])
  end.

(** ** Data of the analyzer *)

(** The dict [{'class', 'path', 'line', 'full_line'}] built by
    [find_implementations]. *)
Record Implementation := mkImplementation {
  impl_class : string;
  impl_path : string;
  impl_line : Z;
  impl_full_line : string
}.

(** The dict [{'class': ..., 'derived': [...]}] built by
    [get_class_hierarchy]. *)
#[warnings="-register-all"]
Inductive Hierarchy : Type :=
  | Node (class : string) (derived : list Hierarchy).

Definition class_of (h : Hierarchy) : string :=
  match h with Node c _ => c end.

Definition derived_of (h : Hierarchy) : list Hierarchy :=
  match h with Node _ ds => ds end.

(** The dict returned by [analyze_api_usage]. *)
Record UsageStats := mkUsageStats {
  total_calls : Z;
  files : Z;
  directories : gmap string Z;
  patterns : gmap string Z
}.

(** [d[k] += 1] on a [defaultdict(int)]. *)
Definition incr (k : string) (d : gmap string Z) : gmap string Z :=
  <[k := default 0 (d !! k) + 1]> d.

(** ** Loops of the analyzer that touch no client *)

(** The loop of [find_implementations] over the search results. *)
Fixpoint collect_implementations (results : list MatchRecord)
    (implementations : list Implementation) : list Implementation :=
  match results with
  | [] => implementations
  | (path, line_num, line) :: rest =>
      match re_search_class line with
      | Some cls =>
          collect_implementations rest
            (implementations ++
               [{| impl_class := cls; impl_path := path;
                   impl_line := line_num; impl_full_line := strip line |}])
      | None => collect_implementations rest implementations
      end
  end.

(** The loop of [find_method_calls] that removes duplicates: [seen] is the
    set of keys, [unique_results] the list under construction. *)
Fixpoint dedup_loop (all_results : list MatchRecord) (seen : gset Key)
    (unique_results : list MatchRecord) : list MatchRecord :=
  match all_results with
  | [] => unique_results
  | result :: rest =>
      let key := key_of result in
      if decide (key ∈ seen) then dedup_loop rest seen unique_results
      else dedup_loop rest ({[key]} ∪ seen) (unique_results ++ [result])
  end.

(** The loop with its initial [seen = set()] and [unique_results = []]. *)
Definition dedup (all_results : list MatchRecord) : list MatchRecord :=
  dedup_loop all_results ∅ [].

(** The deduplicating collector over two result lists: the loop of
    [find_method_calls] run over one list followed by the other. *)
Definition merge (existing incoming : list MatchRecord) : list MatchRecord :=
  dedup (existing ++ incoming).

(** The usage pattern of one line, by the [if]/[elif] chain of
    [analyze_api_usage]. *)
Definition pattern_of (api_function line : string) : string :=
  if contains ("new " +:+ api_function) line then "constructor"
  else if contains (api_function +:+ "::") line then "static_method"
  else if contains ("->" +:+ api_function) line
          || contains ("." +:+ api_function) line then "method_call"
  else "other".

(** The loop of [analyze_api_usage]: the state is
    [usage_stats['files']], [usage_stats['directories']] and
    [usage_stats['patterns']]. *)
Fixpoint usage_loop (api_function : string) (results : list MatchRecord)
    (st : gset string * gmap string Z * gmap string Z)
  : gset string * gmap string Z * gmap string Z :=
  match results with
  | [] => st
  | (path, _, line) :: rest =>
      let '(fs, dirs, pats) := st in
      let fs := {[path]} ∪ fs in
      let dirs :=
        if contains "/" path then incr (split_slash_head path) dirs
        else dirs in
      let pats := incr (pattern_of api_function line) pats in
      usage_loop api_function rest (fs, dirs, pats)
  end.

(** ** [MozillaCodeAnalyzer] *)

Section Analyzer.

(** [self.client.search] *)
Variable client_search : SearchFn.

(** One request: it is logged, and its exception, if any, is raised. *)
Definition search (args : SearchArgs) : M (list MatchRecord) :=
  λ log,
    (match client_search args with
     | Ok results => Done results
     | Err e => Raised e
     end, log ++ [args]).

(** [search(symbol=interface, cpp=True, limit=limit)] *)
Definition symbol_cpp_args (sym : string) (limit : Z) : SearchArgs :=
  {| q_query := None; q_path := None; q_case := false; q_regexp := false;
     q_limit := limit; q_context := None; q_symbol := Some sym;
     q_id := None; q_cpp := true; q_c_lang := false; q_webidl := false;
     q_js := false |}.

(** [search(id=method_name, cpp=True, limit=limit)] *)
Definition id_cpp_args (name : string) (limit : Z) : SearchArgs :=
  {| q_query := None; q_path := None; q_case := false; q_regexp := false;
     q_limit := limit; q_context := None; q_symbol := None;
     q_id := Some name; q_cpp := true; q_c_lang := false;
     q_webidl := false; q_js := false |}.

(** [search(symbol=api_function, limit=100)] *)
Definition symbol_args (sym : string) (limit : Z) : SearchArgs :=
  {| q_query := None; q_path := None; q_case := false; q_regexp := false;
     q_limit := limit; q_context := None; q_symbol := Some sym;
     q_id := None; q_cpp := false; q_c_lang := false; q_webidl := false;
     q_js := false |}.

Definition find_implementations (interface : string) (limit : Z)
  : M (list Implementation) :=
  let! results := search (symbol_cpp_args interface limit) in
  ret (collect_implementations results []).

Definition find_method_calls (class_name method_name : string) (limit : Z)
  : M (list MatchRecord) :=
  let full_method := class_name +:+ "::" +:+ method_name in
  let! results := search (symbol_cpp_args full_method limit) in
  let! all_results :=
    match results with
    | [] => search (id_cpp_args method_name limit)
    | _ :: _ => ret results
    end in
  ret (dedup all_results).

(** The method calls itself once for each level, so the calls nest as deep
    as the tree.  The interpreter bounds the nesting (its recursion limit,
    less the frames that are in use and those that the calls made within
    one level need): [room] is the number of nested calls of
    [get_class_hierarchy] that it still has room for.  A call made when no
    room is left raises [RecursionError], which the model raises on entry;
    each level passes one less to the calls it makes. *)
Fixpoint get_class_hierarchy (room : nat) (base_class : string) (depth : Z)
  : M Hierarchy :=
  match room with
  | O => recursion_error
  | S room' =>
      let! implementations := find_implementations base_class 30 in
      if depth >? 0 then
        let! derived :=
          for_append
            (λ impl, get_class_hierarchy room' (impl_class impl) (depth - 1))
            implementations [] in
        ret (Node base_class derived)
      else
        ret (Node base_class
               (map (λ impl, Node (impl_class impl) []) implementations))
  end.

Definition analyze_api_usage (api_function : string) : M UsageStats :=
  let! results := search (symbol_args api_function 100) in
  let '(fs, dirs, pats) := usage_loop api_function results (∅, ∅, ∅) in
  ret {| total_calls := Z.of_nat (length results);
         files := Z.of_nat (size fs);
         directories := dirs;
         patterns := pats |}.

End Analyzer.

(** The loop body of [get_class_hierarchy]. *)
Definition expand_child (client_search : SearchFn) (room : nat) (depth : Z)
    (impl : Implementation) : M Hierarchy :=
  get_class_hierarchy client_search room (impl_class impl) (depth - 1).

(** The keys of a list of results, as the set [seen] holds them. *)
Definition keys (l : list MatchRecord) : gset Key :=
  list_to_set (key_of <$> l).

(** A computation is framed when it only appends to the log and its outcome
    does not depend on the log it starts from. *)
Definition framed {A} (m : M A) : Prop :=
  ∀ log, m log = (result m, log ++ requests m).

(** ** Measures on hierarchies *)

(** A childless node, as the [else] branch of [get_class_hierarchy] builds
    it. *)
Definition leaf (impl : Implementation) : Hierarchy :=
  Node (impl_class impl) [].

(** Number of levels of ['derived'] nesting below the root. *)
Fixpoint height (h : Hierarchy) : nat :=
  match h with
  | Node _ ds => foldr (λ d acc, Nat.max (S (height d)) acc) O ds
  end.

(** The nodes [n] levels below the root, left to right. *)
Fixpoint level (n : nat) (h : Hierarchy) : list Hierarchy :=
  match n with
  | O => [h]
  | S n' => flat_map (level n') (derived_of h)
  end.

(** The labels of the nodes at most [n] levels below the root, parents
    before children, left to right. *)
Fixpoint labels_upto (n : nat) (h : Hierarchy) : list string :=
  class_of h ::
    match n with
    | O => []
    | S n' => flat_map (labels_upto n') (derived_of h)
    end.

(** ** Clients used in the examples *)

(** A client that answers symbol searches from a table and finds nothing
    otherwise. *)
Definition table_client
    (table : list (string * Response (list MatchRecord))) : SearchFn :=
  λ args,
    match q_symbol args with
    | Some sym =>
        match list_find (λ row, row.1 = sym) table with
        | Some (_, (_, answer)) => answer
        | None => Ok []
        end
    | None => Ok []
    end.

(** [B] derives from [A]. *)
Definition client_derived : SearchFn :=
  table_client [("A", Ok [("a.h", 10, "class B : public A {")])].

(** [B] is found under [A] and [A] under [B]. *)
Definition client_cycle : SearchFn :=
  table_client
    [("A", Ok [("b.h", 3, "class B : public A {")]);
     ("B", Ok [("a.h", 8, "  friend class A;")])].

(** Three classes under [R]; the search for the second one fails. *)
Definition client_one_failure : SearchFn :=
  table_client
    [("R", Ok [("x.h", 1, "class X : public R {");
               ("y.h", 1, "class Y : public R {");
               ("z.h", 1, "class Z : public R {")]);
     ("X", Ok [("x1.h", 5, "class X1 final : public X {")]);
     ("Y", Err "request timed out");
     ("Z", Ok [("z1.h", 5, "class Z1 final : public Z {")])].


(** The chain [A → B → A → B → A → B → A]. *)
Definition cycle_chain : Hierarchy :=
  Node "A" [Node "B" [Node "A" [Node "B" [Node "A" [Node "B"
    [Node "A" []]]]]]].

(** The counts stored in a [dict] of counters, added up. *)
Definition sum_counts (d : gmap string Z) : Z :=
  map_fold (λ _ v acc, v + acc) 0 d.

(** The four keys that [analyze_api_usage] stores under ['patterns']. *)
Definition pattern_buckets : gset string :=
  {["constructor"; "static_method"; "method_call"; "other"]}.

(** ** [searchfox/__init__.py] *)

(** [SearchfoxClient(repo, log_requests)] *)
Record SearchfoxClient := mkSearchfoxClient {
  client_repo : string;
  client_log_requests : bool
}.

Section Package.

(** The transport capability [send(path, params) -> raw payload]. *)
Variable transport_send : string → list (string * string) → Response string.

(** The request of a definition lookup: the path and the parameters that
    the query builder produces for it. *)
Variable definition_request :
  string → string → option string → string * list (string * string).

(** Modelled from the spec: the method [SearchfoxClient.get_definition]
    of the compiled extension module, which is not among the Python
    sources.  It is a single indexed lookup through the transport; a
    transport error propagates to the caller; an empty payload gives the
    explicit not-found value ([None]) and never an empty string; any
    other payload is the text of the definition. *)
Definition client_get_definition (client : SearchfoxClient)
    (symbol : string) (path_filter : option string)
  : Response (option string) :=
  let '(endpoint, params) :=
    definition_request (client_repo client) symbol path_filter in
  match transport_send endpoint params with
  | Err e => Err e
  | Ok payload =>
      if decide (payload = "") then Ok None else Ok (Some payload)
  end.

(** [get_definition(symbol, repo, path_filter, log_requests)] *)
Definition get_definition (symbol repo : string)
    (path_filter : option string) (log_requests : bool)
  : Response (option string) :=
  let client := mkSearchfoxClient repo log_requests in
  client_get_definition client symbol path_filter.

End Package.

(** ** Properties under examination *)

(** With depth 0 the returned node has no children. *)
Definition childless_at_depth_zero (client_search : SearchFn)
    (base_class : string) : Prop :=
  ∀ room h,
    result (get_class_hierarchy client_search room base_class 0) = Done h →
    derived_of h = [].

(** The traversal returns a tree. *)
Definition returns_a_tree (client_search : SearchFn) (room : nat)
    (base_class : string) (depth : Z) : Prop :=
  ∃ h, result (get_class_hierarchy client_search room base_class depth)
       = Done h.

(** ** The pattern of [analyze_include_patterns]

    The pattern is [#include\s+[<Q]([^>Q]+)[>Q]], where [Q] stands for the
    double quote: the keyword, whitespace, an opening [<] or quote, a
    non-empty run of characters other than [>] and the quote, and a
    closing [>] or quote. *)

(** The double quote character. *)
Definition dquote : ascii := ascii_of_N 34.

(** The class of [<] and the double quote. *)
Definition is_open (c : ascii) : bool :=
  Ascii.eqb c "<"%char || Ascii.eqb c dquote.

(** The class of [>] and the double quote, which ends a header; the
    characters of a header are the ones outside it. *)
Definition is_close (c : ascii) : bool :=
  Ascii.eqb c ">"%char || Ascii.eqb c dquote.

(** The longest run of header characters at the head of [s], provided
    that a closing character follows it. *)
Fixpoint header_upto_close (s : string) : option string :=
  match s with
  | EmptyString => None
  | String c s' =>
      if is_close c then Some EmptyString
      else
        match header_upto_close s' with
        | Some h => Some (String c h)
        | None => None
        end
  end.

(** The group and the closing character at the head of [s]: the run must
    not be empty. *)
Definition match_header (s : string) : option string :=
  match header_upto_close s with
  | Some (String c h) => Some (String c h)
  | _ => None
  end.

(** The opening character, the group and the closing character at the
    head of [s]. *)
Definition match_open_header (s : string) : option string :=
  match s with
  | String c s' => if is_open c then match_header s' else None
  | EmptyString => None
  end.

(** The rest of the pattern once one whitespace character has been taken:
    greedily take more, and fall back to the opening character where that
    fails. *)
Fixpoint match_spaces_header (s : string) : option string :=
  match s with
  | String c s' =>
      if is_space c then
        match match_spaces_header s' with
        | Some h => Some h
        | None => match_open_header s
        end
      else match_open_header s
  | EmptyString => None
  end.

(** The whole pattern anchored at the head of [s]. *)
Definition match_include_at (s : string) : option string :=
  match strip_prefix "#include" s with
  | Some (String c rest) =>
      if is_space c then match_spaces_header rest else None
  | _ => None
  end.

(** [re.search(pattern, line)] for the include pattern, reduced to
    [match.group(1)]: the leftmost match. *)
Fixpoint re_search_include (line : string) : option string :=
  match match_include_at line with
  | Some h => Some h
  | None =>
      match line with
      | String _ line' => re_search_include line'
      | EmptyString => None
      end
  end.

(** ** Counters that keep the order of insertion *)

(** [d[k] += 1] on a [defaultdict(int)] whose order of insertion matters:
    a present key is updated in place, a new key goes to the end. *)
Fixpoint incr_item (k : string) (d : list (string * Z)) : list (string * Z) :=
  match d with
  | [] => [(k, 0 + 1)]
  | (k', v) :: d' =>
      if decide (k' = k) then (k', v + 1) :: d'
      else (k', v) :: incr_item k d'
  end.

(** One step of a stable sort by count, largest first: [x], which comes
    before every item of [l] in the input, goes in front of the first item
    whose count is not larger. *)
Fixpoint insert_by_count (x : string * Z) (l : list (string * Z))
  : list (string * Z) :=
  match l with
  | [] => [x]
  | y :: l' =>
      if x.2 <? y.2 then y :: insert_by_count x l' else x :: y :: l'
  end.

(** [sorted(items, key=lambda x: x[1], reverse=True)]: the sort is stable,
    also with [reverse=True]. *)
Definition sorted_by_count (items : list (string * Z)) : list (string * Z) :=
  foldr insert_by_count [] items.

(** The loop of [analyze_include_patterns]. *)
Fixpoint include_loop (results : list MatchRecord)
    (include_counts : list (string * Z)) : list (string * Z) :=
  match results with
  | [] => include_counts
  | (_, _, line) :: rest =>
      match re_search_include line with
      | Some header => include_loop rest (incr_item header include_counts)
      | None => include_loop rest include_counts
      end
  end.

(** [search(query='#include', path='^' + directory, cpp=True, limit=limit)] *)
Definition include_args (directory : string) (limit : Z) : SearchArgs :=
  {| q_query := Some "#include"; q_path := Some ("^" +:+ directory);
     q_case := false; q_regexp := false; q_limit := limit;
     q_context := None; q_symbol := None; q_id := None; q_cpp := true;
     q_c_lang := false; q_webidl := false; q_js := false |}.

(** The returned [dict], as the list of its items in order. *)
Definition analyze_include_patterns (client_search : SearchFn)
    (directory : string) (limit : Z) : M (list (string * Z)) :=
  let! results := search client_search (include_args directory limit) in
  ret (sorted_by_count (include_loop results [])).

(** The lines of [results] in which the pattern finds the header [h]. *)
Definition includes_of (h : string) (results : list MatchRecord)
  : list MatchRecord :=
  filter (λ r : MatchRecord, re_search_include r.2 = Some h) results.

(** The counts of an ordered counter, added up. *)
Definition sum_items (d : list (string * Z)) : Z :=
  foldr (λ item acc, item.2 + acc) 0 d.

(** ** [print_hierarchy] *)

(** [s * n] *)
Fixpoint repeat_string (s : string) (n : nat) : string :=
  match n with
  | O => EmptyString
  | S n' => s +:+ repeat_string s n'
  end.

(** The lines that [print_hierarchy(hierarchy, indent)] prints, in order.
    [branch] is the text that the source puts in front of the class name;
    its characters lie outside the code points of [string]. *)
Fixpoint print_hierarchy (branch : string) (hierarchy : Hierarchy)
    (indent : Z) : list string :=
  match hierarchy with
  | Node class derived =>
      (repeat_string "  " (Z.to_nat indent) +:+ branch +:+ class)
        :: flat_map (λ d, print_hierarchy branch d (indent + 1)) derived
  end.

(** Number of nodes. *)
Fixpoint node_count (h : Hierarchy) : nat :=
  match h with
  | Node _ ds => S (foldr (λ d acc, (node_count d + acc)%nat) O ds)
  end.

(** ** The class extraction of [advanced_example] in [examples/demo.py] *)

(** [s.split()]: the maximal runs of characters that are not whitespace. *)
Fixpoint split_ws (s : string) : list string :=
  match s with
  | EmptyString => []
  | String c s' =>
      if is_space c then split_ws s'
      else
        match s' with
        | EmptyString => [String c EmptyString]
        | String c' _ =>
            if is_space c' then String c EmptyString :: split_ws s'
            else
              match split_ws s' with
              | t :: ts => String c t :: ts
              | [] => [String c EmptyString]
              end
        end
  end.

(** [s.rstrip(':')] *)
Fixpoint rstrip_colon (s : string) : string :=
  match s with
  | String c s' =>
      match rstrip_colon s' with
      | EmptyString =>
          if Ascii.eqb c ":"%char then EmptyString else String c EmptyString
      | r => String c r
      end
  | EmptyString => EmptyString
  end.

(** [parts.index(x)], for [x] in [parts]. *)
Fixpoint index_of (x : string) (parts : list string) : nat :=
  match parts with
  | [] => O
  | p :: parts' => if decide (p = x) then O else S (index_of x parts')
  end.

(** The dict [{'name', 'path', 'line'}]. *)
Record AudioNode := mkAudioNode {
  node_name : string;
  node_path : string;
  node_line : Z
}.

(** The loop of [advanced_example] over the search results. *)
Fixpoint collect_audio_nodes (results : list MatchRecord)
    (audio_nodes : list AudioNode) : list AudioNode :=
  match results with
  | [] => audio_nodes
  | (path, line_num, line) :: rest =>
      if contains "class " line && contains ": public AudioNode" line then
        let parts := split_ws line in
        if bool_decide ("class" ∈ parts) then
          let idx := index_of "class" parts in
          match parts !! (idx + 1)%nat with
          | Some part =>
              collect_audio_nodes rest
                (audio_nodes ++
                   [{| node_name := rstrip_colon part; node_path := path;
                       node_line := line_num |}])
          | None => collect_audio_nodes rest audio_nodes
          end
        else collect_audio_nodes rest audio_nodes
      else collect_audio_nodes rest audio_nodes
  end.

(** ** Shapes of strings *)

(** The characters of a string. *)
Fixpoint chars (s : string) : list ascii :=
  match s with
  | EmptyString => []
  | String c s' => c :: chars s'
  end.

(** A non-empty string of word characters. *)
Definition is_identifier (w : string) : Prop :=
  w ≠ EmptyString ∧ Forall (λ c, is_word c = true) (chars w).

(** A non-empty string of whitespace. *)
Definition is_blank (ws : string) : Prop :=
  ws ≠ EmptyString ∧ Forall (λ c, is_space c = true) (chars ws).

(** [line] holds, after [before], the keyword, whitespace, the identifier
    [w] and then [after], where the identifier cannot be extended. *)
Definition class_occurrence (line before ws w after : string) : Prop :=
  line = before +:+ "class" +:+ ws +:+ w +:+ after
  ∧ is_blank ws ∧ is_identifier w
  ∧ match after with
    | String c _ => is_word c = false
    | EmptyString => True
    end.

(** What [find_implementations] makes of one search result. *)
Definition implementation_of (r : MatchRecord) : option Implementation :=
  match re_search_class r.2 with
  | Some cls =>
      Some {| impl_class := cls; impl_path := r.1.1; impl_line := r.1.2;
              impl_full_line := strip r.2 |}
  | None => None
  end.

(** The count stored for [k] in an ordered counter, 0 when there is
    none. *)
Definition count_of (k : string) (d : list (string * Z)) : Z :=
  sum_items (filter (λ item : string * Z, item.1 = k) d).

(** A client that finds nothing for symbols and the same line twice for
    the identifier [CreateGain]. *)
Definition client_gain : SearchFn :=
  λ args,
    match q_id args with
    | Some "CreateGain" =>
        Ok [("dom/a.cpp", 7, "ctx->CreateGain();");
            ("dom/a.cpp", 7, "ctx->CreateGain();")]
    | _ => Ok []
    end.

(** Four results for [createElement], one of them at the top level of the
    tree. *)
Definition usage_results : list MatchRecord :=
  [("dom/a.cpp", 1, "x = new createElement();");
   ("dom/b.cpp", 2, "doc->createElement(tag)");
   ("js/c.cpp", 3, "createElement::make()");
   ("README", 4, "createElement")].

Definition client_usage : SearchFn :=
  table_client [("createElement", Ok usage_results)].

(** Results of an [#include] search: one header twice, two others once,
    and a line without a header. *)
Definition include_results : list MatchRecord :=
  [("dom/media/a.cpp", 1, "#include <vector>");
   ("dom/media/a.cpp", 2, "#include  <map>");
   ("dom/media/b.cpp", 1, "// #include nothing");
   ("dom/media/b.cpp", 2, "#include <AudioNode.h>");
   ("dom/media/c.cpp", 1, "  #include <map>")].

Definition client_includes : SearchFn :=
  λ args,
    match q_query args with
    | Some "#include" => Ok include_results
    | _ => Ok []
    end.

(** [line] holds, after [before], the keyword [#include], whitespace, an
    opening character, the header [h] and a closing character. *)
Definition include_occurrence
    (line before ws : string) (opener : ascii) (h : string) (closer : ascii)
    (after : string) : Prop :=
  line = before +:+ "#include" +:+ ws +:+ String opener h
           +:+ String closer after
  ∧ is_blank ws
  ∧ is_open opener = true
  ∧ h ≠ EmptyString
  ∧ Forall (λ c, is_close c = false) (chars h)
  ∧ is_close closer = true.

(** What the loop of [advanced_example] makes of one search result. *)
Definition audio_node_of (r : MatchRecord) : option AudioNode :=
  if contains "class " r.2 && contains ": public AudioNode" r.2 then
    let parts := split_ws r.2 in
    if bool_decide ("class" ∈ parts) then
      match parts !! (index_of "class" parts + 1)%nat with
      | Some part =>
          Some {| node_name := rstrip_colon part; node_path := r.1.1;
                  node_line := r.1.2 |}
      | None => None
      end
    else None
  else None.


(** * Proofs *)

(** ** The duplicate-removing loop *)

Section Dedup.

Lemma dedup_loop_acc (l : list MatchRecord) : ∀ seen acc,
  dedup_loop l seen acc = acc ++ dedup_loop l seen [].
Proof.
  induction l as [|r l IH]; intros seen acc; simpl.
  - by rewrite app_nil_r.
  - case_decide.
    + apply IH.
    + rewrite (IH _ (acc ++ [r])), (IH _ [r]). by rewrite <-app_assoc.
Qed.

Lemma dedup_loop_cons (r : MatchRecord) (l : list MatchRecord) (seen : gset Key) :
  dedup_loop (r :: l) seen [] =
    if decide (key_of r ∈ seen) then dedup_loop l seen []
    else r :: dedup_loop l ({[key_of r]} ∪ seen) [].
Proof.
  simpl. destruct (decide (key_of r ∈ seen)); [done|].
  by rewrite dedup_loop_acc.
Qed.

(** Keys already in [seen] are exactly the ones filtered out. *)
Lemma dedup_loop_union (l : list MatchRecord) : ∀ S T : gset Key,
  dedup_loop l (S ∪ T) [] =
    filter (λ r, key_of r ∉ S) (dedup_loop l T []).
Proof.
  induction l as [|r l IH]; intros S T; [done|].
  rewrite !dedup_loop_cons.
  destruct (decide (key_of r ∈ T)) as [HT|HT].
  - rewrite decide_True by set_solver. apply IH.
  - destruct (decide (key_of r ∈ S)) as [HS|HS].
    + rewrite decide_True by set_solver.
      rewrite filter_cons_False by (intros ?; contradiction).
      rewrite <-IH. f_equal. set_solver.
    + rewrite decide_False by set_solver.
      rewrite filter_cons_True by done.
      rewrite <-IH. do 2 f_equal. set_solver.
Qed.

Lemma dedup_loop_app (l1 : list MatchRecord) : ∀ l2 seen,
  dedup_loop (l1 ++ l2) seen [] =
    dedup_loop l1 seen [] ++ dedup_loop l2 (keys l1 ∪ seen) [].
Proof.
  induction l1 as [|r l1 IH]; intros l2 seen.
  - simpl. f_equal. unfold keys. set_solver.
  - rewrite <-app_comm_cons, !dedup_loop_cons. case_decide.
    + rewrite IH. do 2 f_equal. unfold keys. set_solver.
    + rewrite IH. simpl. do 3 f_equal. unfold keys. set_solver.
Qed.

Lemma dedup_loop_fresh (l : list MatchRecord) : ∀ seen r,
  r ∈ dedup_loop l seen [] → (key_of r ∉ seen) ∧ r ∈ l.
Proof.
  induction l as [|r' l IH]; intros seen r; [by intros ?%elem_of_nil|].
  rewrite dedup_loop_cons. case_decide.
  - intros [??]%IH. split; [done|]. by apply elem_of_cons; right.
  - intros [->|[??]%IH]%elem_of_cons.
    + split; [done|]. by apply elem_of_cons; left.
    + split; [set_solver|]. by apply elem_of_cons; right.
Qed.

Lemma dedup_loop_NoDup (l : list MatchRecord) : ∀ seen,
  NoDup (key_of <$> dedup_loop l seen []).
Proof.
  induction l as [|r l IH]; intros seen; [constructor|].
  rewrite dedup_loop_cons. case_decide; [apply IH|].
  rewrite fmap_cons. constructor; [|apply IH].
  intros (r' & Hk & [Hr' _]%dedup_loop_fresh)%list_elem_of_fmap.
  apply Hr'. rewrite <-Hk. apply elem_of_union_l. by apply elem_of_singleton.
Qed.

Lemma dedup_loop_keys (l : list MatchRecord) : ∀ seen,
  keys (dedup_loop l seen []) ∪ seen = keys l ∪ seen.
Proof.
  induction l as [|r l IH]; intros seen; [done|].
  rewrite dedup_loop_cons. case_decide.
  - rewrite IH. unfold keys. clear IH. set_solver.
  - specialize (IH ({[key_of r]} ∪ seen)). unfold keys in *.
    rewrite !fmap_cons, !list_to_set_cons.
    assert (∀ X : gset Key,
      {[key_of r]} ∪ X ∪ seen = X ∪ ({[key_of r]} ∪ seen)) as Hc
      by (clear; set_solver).
    by rewrite !Hc.
Qed.

Lemma dedup_loop_sublist (l : list MatchRecord) : ∀ seen, sublist (dedup_loop l seen []) l.
Proof.
  induction l as [|r l IH]; intros seen; [constructor|].
  rewrite dedup_loop_cons. case_decide.
  - by apply sublist_cons.
  - by apply sublist_skip.
Qed.

Lemma dedup_loop_head (l : list MatchRecord) : ∀ seen k,
  k ∉ seen →
  head (filter (λ r, key_of r = k) (dedup_loop l seen [])) =
    head (filter (λ r, key_of r = k) l).
Proof.
  induction l as [|r l IH]; intros seen k Hk; [done|].
  rewrite dedup_loop_cons. case_decide.
  - rewrite (filter_cons_False _ _ l) by set_solver. by apply IH.
  - destruct (decide (key_of r = k)) as [Heq|Hne].
    + by rewrite !filter_cons_True.
    + rewrite !filter_cons_False by done. apply IH. set_solver.
Qed.

(** A list without duplicate keys, none of them seen, is left as it is. *)
Lemma dedup_loop_id (l : list MatchRecord) : ∀ seen,
  NoDup (key_of <$> l) → keys l ## seen → dedup_loop l seen [] = l.
Proof.
  induction l as [|r l IH]; intros seen Hnd Hdisj; [done|].
  rewrite dedup_loop_cons. rewrite fmap_cons in Hnd.
  apply NoDup_cons in Hnd as [Hr Hnd].
  unfold keys in *. rewrite fmap_cons in Hdisj. simpl in Hdisj.
  rewrite decide_False by set_solver.
  f_equal. apply IH; [done|].
  intros k Hk1 [->%elem_of_singleton|Hk2]%elem_of_union.
  - apply Hr. by apply elem_of_list_to_set in Hk1.
  - set_solver.
Qed.

Lemma filter_seen_nil (l : list MatchRecord) (S : gset Key) :
  keys l ⊆ S → filter (λ r, key_of r ∉ S) l = [].
Proof.
  unfold keys. induction l as [|r l IH]; intros Hsub; [done|].
  rewrite fmap_cons, list_to_set_cons in Hsub.
  rewrite filter_cons_False by (intros Hr; apply Hr; set_solver).
  apply IH. set_solver.
Qed.

Lemma dedup_app (l1 l2 : list MatchRecord) :
  dedup (l1 ++ l2) =
    dedup l1 ++ filter (λ r, key_of r ∉ keys l1) (dedup l2).
Proof.
  unfold dedup. by rewrite dedup_loop_app, dedup_loop_union.
Qed.

Lemma dedup_keys (l : list MatchRecord) : keys (dedup l) = keys l.
Proof.
  generalize (dedup_loop_keys l ∅). unfold dedup.
  by rewrite !(right_id_L ∅ (∪)).
Qed.

Lemma dedup_dedup (l : list MatchRecord) : dedup (dedup l) = dedup l.
Proof.
  unfold dedup at 1. apply dedup_loop_id; [apply dedup_loop_NoDup|].
  set_solver.
Qed.

Lemma merge_dedup_r (l1 l2 : list MatchRecord) : merge l1 (dedup l2) = dedup (l1 ++ l2).
Proof. unfold merge. by rewrite !dedup_app, dedup_dedup. Qed.

Lemma merge_dedup_l (l1 l2 : list MatchRecord) : merge (dedup l1) l2 = dedup (l1 ++ l2).
Proof.
  unfold merge. by rewrite !dedup_app, dedup_dedup, dedup_keys.
Qed.

End Dedup.

(** ** Runs and their logs *)

Lemma framed_ret {A} (a : A) : framed (ret a).
Proof. intros log. unfold result, requests, ret. simpl. by rewrite app_nil_r. Qed.

Lemma framed_recursion_error {A} : framed (@recursion_error A).
Proof.
  intros log. unfold result, requests, recursion_error. simpl.
  by rewrite app_nil_r.
Qed.

Lemma framed_search (client_search : SearchFn) (args : SearchArgs) :
  framed (search client_search args).
Proof. intros log. reflexivity. Qed.

Lemma framed_bind {A B} (m : M A) (f : A → M B) :
  framed m → (∀ a, framed (f a)) → framed (bind m f).
Proof.
  intros Hm Hf log. unfold result, requests, bind.
  rewrite (Hm log), (Hm []). simpl.
  destruct (result m) as [a| |]; simpl; [|done..].
  rewrite (Hf a (requests m)), (Hf a (log ++ requests m)).
  simpl. by rewrite app_assoc.
Qed.

Lemma bind_Done {A B} (m : M A) (f : A → M B) (a : A) :
  framed m → framed (f a) → result m = Done a →
  result (bind m f) = result (f a)
  ∧ requests (bind m f) = requests m ++ requests (f a).
Proof.
  intros Hm Hf Ha. unfold result at 1, requests at 1, bind.
  rewrite (Hm []), Ha. simpl. by rewrite (Hf (requests m)).
Qed.

Lemma bind_Raised {A B} (m : M A) (f : A → M B) (e : Exn) :
  result m = Raised e →
  result (bind m f) = Raised e ∧ requests (bind m f) = requests m.
Proof.
  unfold result, requests, bind. destruct (m []) as [[a| |] log]; by intros [=->].
Qed.

Lemma bind_RecursionError {A B} (m : M A) (f : A → M B) :
  result m = RecursionError →
  result (bind m f) = RecursionError ∧ requests (bind m f) = requests m.
Proof.
  unfold result, requests, bind. by destruct (m []) as [[a| |] log].
Qed.

Section ForAppend.

Context {A B : Type} (body : A → M B).
Hypothesis body_framed : ∀ x, framed (body x).

Lemma framed_for_append (xs : list A) : ∀ acc,
  framed (for_append body xs acc).
Proof.
  induction xs as [|x xs IH]; intros acc; simpl.
  - apply framed_ret.
  - apply framed_bind; [apply body_framed|]. intros b. apply IH.
Qed.

(** Every iteration returns: the loop returns the values in order, and
    sends the requests of the iterations one after the other. *)
Lemma for_append_Done (xs : list A) : ∀ (bs acc : list B),
  Forall2 (λ x b, result (body x) = Done b) xs bs →
  result (for_append body xs acc) = Done (acc ++ bs)
  ∧ requests (for_append body xs acc) =
      concat ((λ x, requests (body x)) <$> xs).
Proof.
  induction xs as [|x xs IH]; intros bs acc Hall.
  - apply Forall2_nil_inv_l in Hall as ->.
    unfold result, requests, ret. simpl. by rewrite app_nil_r.
  - apply Forall2_cons_inv_l in Hall as (b & bs' & Hb & Hall & ->).
    simpl.
    destruct (bind_Done (body x) (λ b, for_append body xs (acc ++ [b])) b)
      as [-> ->]; [done|apply framed_for_append|done|].
    destruct (IH bs' (acc ++ [b]) Hall) as [-> ->].
    by rewrite <-app_assoc.
Qed.

(** The loop returns only when every iteration does. *)
Lemma for_append_Done_inv (xs : list A) : ∀ (acc out : list B),
  result (for_append body xs acc) = Done out →
  ∃ bs, out = acc ++ bs
        ∧ Forall2 (λ x b, result (body x) = Done b) xs bs.
Proof.
  induction xs as [|x xs IH]; intros acc out; simpl.
  - intros [=<-]. exists []. by rewrite app_nil_r.
  - destruct (result (body x)) as [b|e|] eqn:Hx.
    + destruct (bind_Done (body x) (λ b, for_append body xs (acc ++ [b])) b)
        as [-> _]; [done|apply framed_for_append|done|].
      intros (bs & -> & Hall)%IH. exists (b :: bs).
      split; [by rewrite <-app_assoc|by constructor].
    + destruct (bind_Raised (body x)
                  (λ b, for_append body xs (acc ++ [b])) e Hx) as [-> _].
      done.
    + destruct (bind_RecursionError (body x)
                  (λ b, for_append body xs (acc ++ [b])) Hx) as [-> _].
      done.
Qed.

(** The first iteration that raises ends the loop: the exception leaves
    it, and the elements after that one are never visited. *)
Lemma for_append_Raised (pre : list A) : ∀ (x : A) (post : list A)
    (bs acc : list B) (e : Exn),
  Forall2 (λ x b, result (body x) = Done b) pre bs →
  result (body x) = Raised e →
  result (for_append body (pre ++ x :: post) acc) = Raised e
  ∧ requests (for_append body (pre ++ x :: post) acc) =
      concat ((λ x, requests (body x)) <$> pre) ++ requests (body x).
Proof.
  induction pre as [|p pre IH]; intros x post bs acc e Hall Hx.
  - simpl.
    by destruct (bind_Raised (body x)
                   (λ b, for_append body post (acc ++ [b])) e Hx)
      as [-> ->].
  - apply Forall2_cons_inv_l in Hall as (b & bs' & Hb & Hall & ->).
    simpl.
    destruct (bind_Done (body p)
                (λ b, for_append body (pre ++ x :: post) (acc ++ [b])) b)
      as [-> ->]; [done|apply framed_for_append|done|].
    destruct (IH x post bs' (acc ++ [b]) e Hall Hx) as [-> ->].
    by rewrite <-app_assoc.
Qed.

(** The loop does not hit the recursion limit unless an iteration does. *)
Lemma for_append_within_limit (xs : list A) : ∀ (acc : list B),
  Forall (λ x, result (body x) ≠ RecursionError) xs →
  result (for_append body xs acc) ≠ RecursionError.
Proof.
  induction xs as [|x xs IH]; intros acc Hall; [done|].
  apply Forall_cons in Hall as [Hx Hall]. simpl.
  destruct (result (body x)) as [b|e|] eqn:Hb; [| |done].
  - destruct (bind_Done (body x) (λ b, for_append body xs (acc ++ [b])) b)
      as [-> _]; [done|apply framed_for_append|done|].
    by apply IH.
  - by destruct (bind_Raised (body x)
                   (λ b, for_append body xs (acc ++ [b])) e Hb) as [-> _].
Qed.

End ForAppend.


(** ** [find_implementations] and [get_class_hierarchy] *)

Section Hierarchy.

Variable client_search : SearchFn.

Local Abbreviation find_impl := (find_implementations client_search).
Local Abbreviation gch := (get_class_hierarchy client_search).

Lemma framed_find_implementations (interface : string) (limit : Z) :
  framed (find_impl interface limit).
Proof.
  apply framed_bind; [apply framed_search|]. intros ?. apply framed_ret.
Qed.

Lemma find_implementations_run (interface : string) (limit : Z) :
  result (find_impl interface limit) =
    match client_search (symbol_cpp_args interface limit) with
    | Ok results => Done (collect_implementations results [])
    | Err e => Raised e
    end
  ∧ requests (find_impl interface limit) =
      [symbol_cpp_args interface limit].
Proof.
  unfold result, requests, find_implementations, bind, search, ret. simpl.
  by destruct (client_search _).
Qed.

Lemma framed_get_class_hierarchy (room : nat) : ∀ base_class depth,
  framed (gch room base_class depth).
Proof.
  induction room as [|room IH]; intros base_class depth; simpl.
  - apply framed_recursion_error.
  - apply framed_bind; [apply framed_find_implementations|].
    intros impls. destruct (depth >? 0); [|apply framed_ret].
    apply framed_bind; [|intros ?; apply framed_ret].
    apply framed_for_append. intros impl. apply IH.
Qed.

Lemma gch_raise (room : nat) (base_class : string) (depth : Z) (e : Exn) :
  client_search (symbol_cpp_args base_class 30) = Err e →
  result (gch (S room) base_class depth) = Raised e
  ∧ requests (gch (S room) base_class depth) =
      [symbol_cpp_args base_class 30].
Proof.
  intros He. simpl.
  destruct (find_implementations_run base_class 30) as [Hr Hq].
  rewrite He in Hr. rewrite <-Hq. by apply bind_Raised.
Qed.

Lemma gch_leaves (room : nat) (base_class : string) (depth : Z)
    (results : list MatchRecord) :
  depth ≤ 0 →
  client_search (symbol_cpp_args base_class 30) = Ok results →
  result (gch (S room) base_class depth) =
    Done (Node base_class (leaf <$> collect_implementations results []))
  ∧ requests (gch (S room) base_class depth) =
      [symbol_cpp_args base_class 30].
Proof.
  intros Hd Hok. simpl.
  destruct (find_implementations_run base_class 30) as [Hr Hq].
  rewrite Hok in Hr.
  match goal with |- context [bind _ ?f] =>
    destruct (bind_Done (find_impl base_class 30) f _
                (framed_find_implementations _ _)
                ltac:(simpl; destruct (depth >? 0);
                      [apply framed_bind;
                       [apply framed_for_append; intros ?;
                        apply framed_get_class_hierarchy
                       |intros ?; apply framed_ret]
                      |apply framed_ret]) Hr) as [-> ->]
  end.
  rewrite Hq. replace (depth >? 0) with false by lia.
  unfold result, requests, ret. simpl. done.
Qed.

Lemma gch_rec (room : nat) (base_class : string) (depth : Z)
    (results : list MatchRecord) :
  depth > 0 →
  client_search (symbol_cpp_args base_class 30) = Ok results →
  let loop :=
    for_append (expand_child client_search room depth)
      (collect_implementations results []) [] in
  result (gch (S room) base_class depth) =
    match result loop with
    | Done derived => Done (Node base_class derived)
    | Raised e => Raised e
    | RecursionError => RecursionError
    end
  ∧ requests (gch (S room) base_class depth) =
      symbol_cpp_args base_class 30 :: requests loop.
Proof.
  intros Hd Hok loop. simpl.
  destruct (find_implementations_run base_class 30) as [Hr Hq].
  rewrite Hok in Hr.
  assert (framed loop) as Hloop.
  { apply framed_for_append. intros ?. apply framed_get_class_hierarchy. }
  match goal with |- context [bind _ ?f] =>
    destruct (bind_Done (find_impl base_class 30) f _
                (framed_find_implementations _ _)
                ltac:(simpl; destruct (depth >? 0);
                      [apply framed_bind;
                       [apply framed_for_append; intros ?;
                        apply framed_get_class_hierarchy
                       |intros ?; apply framed_ret]
                      |apply framed_ret]) Hr) as [-> ->]
  end.
  rewrite Hq. replace (depth >? 0) with true by lia.
  fold (expand_child client_search room depth). fold loop. simpl.
  destruct (result loop) as [ds|e|] eqn:Hl.
  - destruct (bind_Done loop (λ ds, ret (Node base_class ds)) ds)
      as [-> ->]; [done|apply framed_ret|done|].
    unfold result, requests, ret. simpl. by rewrite app_nil_r.
  - by destruct (bind_Raised loop (λ ds, ret (Node base_class ds)) e Hl)
      as [-> ->].
  - by destruct (bind_RecursionError loop (λ ds, ret (Node base_class ds)) Hl)
      as [-> ->].
Qed.

End Hierarchy.

Section HierarchyShape.

Variable client_search : SearchFn.

Local Abbreviation gch := (get_class_hierarchy client_search).
Local Abbreviation child := (expand_child client_search).
Local Abbreviation query := (λ c : string, symbol_cpp_args c 30).

Lemma height_Node_le (c : string) (ds : list Hierarchy) (n : nat) :
  Forall (λ d, (height d ≤ n)%nat) ds → (height (Node c ds) ≤ S n)%nat.
Proof.
  simpl. induction 1 as [|d ds Hd _ IH]; simpl; lia.
Qed.

Lemma height_leaves (c : string) (impls : list Implementation) :
  (height (Node c (leaf <$> impls)) ≤ 1)%nat.
Proof. apply height_Node_le, Forall_fmap, Forall_true. simpl. lia. Qed.

Lemma level_1_leaves (c : string) (impls : list Implementation) :
  level 1 (Node c (leaf <$> impls)) = leaf <$> impls.
Proof. simpl. induction impls as [|i impls IH]; simpl; by f_equal. Qed.

Lemma level_succ (n : nat) : ∀ h,
  level (S n) h = flat_map derived_of (level n h).
Proof.
  induction n as [|n IH]; intros h.
  - simpl. rewrite app_nil_r.
    induction (derived_of h) as [|d ds IHds]; simpl; by f_equal.
  - change (level (S (S n)) h)
      with (flat_map (level (S n)) (derived_of h)).
    change (level (S n) h) with (flat_map (level n) (derived_of h)).
    induction (derived_of h) as [|d ds IHds]; [done|].
    cbn [flat_map]. by rewrite flat_map_app, IH, IHds.
Qed.

(** Below a level of childless nodes there is nothing. *)
Lemma level_below_empty (n : nat) (h : Hierarchy) :
  (∀ node, node ∈ level n h → derived_of node = []) →
  level (S n) h = [].
Proof.
  rewrite level_succ. induction (level n h) as [|d ds IH]; [done|].
  intros Hall. simpl.
  rewrite (Hall d (list_elem_of_here _ _)). simpl.
  apply IH. intros node Hnode. apply Hall. by apply list_elem_of_further.
Qed.


(** With room for more nested calls than the depth, the recursion limit
    is not hit. *)
Lemma gch_within_limit (room : nat) : ∀ base_class depth,
  (Z.to_nat depth < room)%nat →
  result (gch room base_class depth) ≠ RecursionError.
Proof.
  induction room as [|room IH]; intros base_class depth Hroom; [lia|].
  destruct (client_search (query base_class)) as [results|e] eqn:Hq.
  - destruct (Z_le_gt_dec depth 0) as [Hd|Hd].
    + by destruct (gch_leaves client_search room base_class depth results)
        as [-> _].
    + destruct (gch_rec client_search room base_class depth results)
        as [-> _]; [done..|].
      pose proof (for_append_within_limit (child room depth)
        (λ x, framed_get_class_hierarchy client_search room _ _)
        (collect_implementations results []) []) as Hloop.
      destruct (result (for_append _ _ _)); [done..|].
      intros _. apply Hloop; [|done]. apply Forall_forall. intros impl _.
      apply IH. lia.
  - by destruct (gch_raise client_search room base_class depth e)
      as [-> _].
Qed.




(** The shape of the tree that a run returns, and the requests the run
    has sent. *)
Lemma gch_shape (room : nat) : ∀ base_class depth h,
  0 ≤ depth →
  result (gch room base_class depth) = Done h →
  (height h ≤ S (Z.to_nat depth))%nat
  ∧ (∀ node, node ∈ level (S (Z.to_nat depth)) h → derived_of node = [])
  ∧ requests (gch room base_class depth) =
      query <$> labels_upto (Z.to_nat depth) h.
Proof.
  induction room as [|room IH]; intros base_class depth h Hd; [done|].
  destruct (client_search (query base_class)) as [results|e] eqn:Hq;
    [|by destruct (gch_raise client_search room base_class depth e)
         as [-> _]].
  destruct (Z_le_gt_dec depth 0) as [Hd0|Hd0].
  - destruct (gch_leaves client_search room base_class depth results)
      as [-> ->]; [done..|].
    intros [=<-]. replace (Z.to_nat depth) with O by lia.
    split; [apply height_leaves|]. split; [|done].
    intros node. rewrite level_1_leaves.
    by intros (impl & -> & _)%list_elem_of_fmap.
  - destruct (gch_rec client_search room base_class depth results)
      as [-> ->]; [done..|].
    set (impls := collect_implementations results []).
    destruct (result (for_append _ _ _)) as [ds| |] eqn:Hloop; [|done..].
    intros [=<-].
    apply for_append_Done_inv in Hloop as (hs & -> & Hhs);
      [|intros ?; apply framed_get_class_hierarchy].
    destruct (for_append_Done (child room depth)
      (λ x, framed_get_class_hierarchy client_search room _ _)
      impls hs [] Hhs) as [_ ->].
    replace (Z.to_nat depth) with (S (Z.to_nat (depth - 1))) by lia.
    simpl app.
    assert (Forall2 (λ impl h,
      (height h ≤ S (Z.to_nat (depth - 1)))%nat
      ∧ (∀ node, node ∈ level (S (Z.to_nat (depth - 1))) h →
                 derived_of node = [])
      ∧ requests (child room depth impl) =
          query <$> labels_upto (Z.to_nat (depth - 1)) h) impls hs)
      as Hall.
    { eapply Forall2_impl; [exact Hhs|]. intros impl h' Hh'.
      apply IH; [lia|done]. }
    clear Hhs. split; [|split].
    + apply height_Node_le.
      induction Hall as [|???? (? & _) _ ?]; by constructor.
    + intros node. change (level (S (S ?n)) (Node ?c ?l))
        with (flat_map (level (S n)) l).
      intros (h' & Hh' & Hnode)%list_elem_of_In%in_flat_map.
      apply list_elem_of_In in Hh', Hnode.
      induction Hall as [|impl h0 ?? (_ & Hlev & _) _ IHall];
        [by apply elem_of_nil in Hh'|].
      apply elem_of_cons in Hh' as [->|Hh']; [by apply Hlev|by apply IHall].
    + change (labels_upto (S ?n) (Node ?c ?l))
        with (c :: flat_map (labels_upto n) l).
      rewrite fmap_cons. f_equal.
      induction Hall as [|impl h0 ?? (_ & _ & Hreq) _ IHall]; [done|].
      rewrite fmap_cons. cbn [concat flat_map].
      by rewrite fmap_app, Hreq, IHall.
Qed.

End HierarchyShape.

(** ** The deduplicating collector *)

(** C5: the loop of [find_method_calls] that removes duplicates returns a
    list in which each [(path, line_num)] key occurs at most once; for each
    key the record kept is the first one of the input with that key; the
    output is a sublist of the input, so the order of first encounter is
    kept; and over [existing ++ incoming] the records from [existing] stay
    in front, at their positions, followed by the new records of
    [incoming] in the order in which they are first met. *)
Theorem dedup_keeps_first_seen (all_results : list MatchRecord) :
  NoDup (key_of <$> dedup all_results)
  ∧ (∀ k : Key,
       head (filter (λ r, key_of r = k) (dedup all_results)) =
         head (filter (λ r, key_of r = k) all_results))
  ∧ sublist (dedup all_results) all_results
  ∧ (∀ existing incoming : list MatchRecord,
       dedup (existing ++ incoming) =
         dedup existing
           ++ filter (λ r, key_of r ∉ keys existing) (dedup incoming)).
Proof.
  split; [apply dedup_loop_NoDup|].
  split; [intros k; apply dedup_loop_head; set_solver|].
  split; [apply dedup_loop_sublist|].
  apply dedup_app.
Qed.

(** C6: [merge] is idempotent on result sets (lists without duplicate
    keys), [merge X X = X]; it is associative on all lists; and merging the
    same incoming list a second time changes nothing. *)
Theorem merge_idempotent_associative (X A B C : list MatchRecord) :
  NoDup (key_of <$> X) →
  merge X X = X
  ∧ merge A (merge B C) = merge (merge A B) C
  ∧ merge (merge A B) B = merge A B.
Proof.
  intros HX. split; [|split].
  - unfold merge. rewrite dedup_app.
    assert (dedup X = X) as ->
      by (apply dedup_loop_id; [done|set_solver]).
    by rewrite filter_seen_nil, app_nil_r.
  - unfold merge at 2 4. rewrite merge_dedup_r, merge_dedup_l.
    by rewrite app_assoc.
  - unfold merge at 2. rewrite merge_dedup_l. unfold merge.
    rewrite (dedup_app (A ++ B) B).
    rewrite filter_seen_nil, app_nil_r; [done|].
    rewrite dedup_keys. unfold keys. rewrite fmap_app, list_to_set_app.
    set_solver.
Qed.

Lemma merge_idempotent_associative_witness :
  let X := [("a.cpp", 1, "f();"); ("b.cpp", 1, "f();")] in
  let A := [("a.cpp", 1, "f();"); ("a.cpp", 1, "again")] in
  let B := [("b.cpp", 2, "g();"); ("a.cpp", 1, "third")] in
  let C := [("b.cpp", 2, "h();"); ("c.cpp", 9, "f();")] in
  merge X X = X
  ∧ merge A (merge B C) = merge (merge A B) C
  ∧ merge (merge A B) B = merge A B.
Proof.
  intros X A B C. apply (merge_idempotent_associative X A B C).
  unfold X. rewrite !fmap_cons. repeat constructor; set_solver.
Defined.

(** ** [find_method_calls] *)

(** C7: in [find_method_calls] the identifier search is sent exactly when
    the symbol search has returned an empty list; the symbol search is
    always the first request; and a returned list has no duplicate
    [(path, line_num)] key and is the collector's merge of the results of
    the searches that were sent. *)
Theorem find_method_calls_fallback (client_search : SearchFn)
    (class_name method_name : string) (limit : Z) :
  let symbol_search :=
    symbol_cpp_args (class_name +:+ "::" +:+ method_name) limit in
  let id_search := id_cpp_args method_name limit in
  let run := find_method_calls client_search class_name method_name limit in
  (id_search ∈ requests run ↔ client_search symbol_search = Ok [])
  ∧ head (requests run) = Some symbol_search
  ∧ (∀ out, result run = Done out →
       NoDup (key_of <$> out)
       ∧ ∃ first second,
           client_search symbol_search = Ok first
           ∧ (if decide (id_search ∈ requests run)
              then client_search id_search = Ok second
              else second = [])
           ∧ out = merge first second).
Proof.
  intros symbol_search id_search run.
  assert (symbol_search ≠ id_search) as Hne by done.
  unfold run, find_method_calls, result, requests, bind, search, ret.
  fold symbol_search id_search. simpl.
  destruct (client_search symbol_search) as [[|r first]|e] eqn:H1; simpl.
  - assert (id_search ∈ [symbol_search; id_search]) as Hin
      by apply list_elem_of_further, list_elem_of_here.
    destruct (client_search id_search) as [second|e] eqn:H2; simpl;
      (split; [done|]); (split; [done|]); [|done].
    intros out [=<-]. split; [apply dedup_loop_NoDup|].
    exists [], second. split; [done|].
    by rewrite decide_True.
  - split.
    { split; [|done]. intros [?|[]%elem_of_nil]%elem_of_cons. congruence. }
    split; [done|].
    intros out [=<-]. split; [apply dedup_loop_NoDup|].
    exists (r :: first), []. split; [done|].
    rewrite decide_False; [unfold merge; by rewrite app_nil_r|].
    intros [?|[]%elem_of_nil]%elem_of_cons. congruence.
  - split.
    { split; [|done]. intros [?|[]%elem_of_nil]%elem_of_cons. congruence. }
    done.
Qed.

(** ** [analyze_api_usage] *)

Section Usage.

Lemma sum_counts_insert (k : string) (v : Z) (d : gmap string Z) :
  d !! k = None → sum_counts (<[k:=v]> d) = v + sum_counts d.
Proof.
  intros Hk. unfold sum_counts.
  rewrite map_fold_insert_L; [done| |done]. intros. lia.
Qed.

Lemma sum_counts_incr (k : string) (d : gmap string Z) :
  sum_counts (incr k d) = sum_counts d + 1.
Proof.
  unfold incr. destruct (d !! k) as [v|] eqn:Hk; simpl.
  - rewrite <-(insert_delete_eq d).
    rewrite sum_counts_insert by apply lookup_delete_eq.
    rewrite <-(insert_id d k v) at 2 by done.
    rewrite <-(insert_delete_eq d).
    rewrite sum_counts_insert by apply lookup_delete_eq. lia.
  - rewrite sum_counts_insert by done. lia.
Qed.

Lemma pattern_of_bucket (api_function line : string) :
  pattern_of api_function line ∈ pattern_buckets.
Proof.
  unfold pattern_of, pattern_buckets.
  repeat match goal with |- context [if ?b then _ else _] =>
    destruct b end; set_solver.
Qed.

Lemma usage_loop_patterns (api_function : string)
    (results : list MatchRecord) :
  ∀ (fs : gset string) (dirs pats : gmap string Z),
  let pats' := (usage_loop api_function results (fs, dirs, pats)).2 in
  sum_counts pats' = sum_counts pats + Z.of_nat (length results)
  ∧ dom pats' ⊆ dom pats ∪ pattern_buckets
  ∧ ∀ bucket,
      default 0 (pats' !! bucket) =
        default 0 (pats !! bucket) +
        Z.of_nat (length (filter
          (λ r : MatchRecord, pattern_of api_function r.2 = bucket)
          results)).
Proof.
  induction results as [|[[path line_num] line] results IH];
    intros fs dirs pats; cbn zeta.
  - simpl. split; [lia|]. split; [set_solver|].
    intros ?. change (Z.of_nat 0) with 0. by rewrite Z.add_0_r.
  - cbn [usage_loop].
    match goal with |- context [usage_loop _ _ (?a, ?b, ?c)] =>
      destruct (IH a b c) as (Hsum & Hdom & Hcount) end.
    cbn zeta in Hsum, Hdom, Hcount.
    split; [|split].
    + rewrite Hsum, sum_counts_incr. cbn [length]. lia.
    + etrans; [exact Hdom|]. unfold incr. rewrite dom_insert_L.
      pose proof (pattern_of_bucket api_function line). set_solver.
    + intros bucket. rewrite Hcount. unfold incr.
      destruct (decide (pattern_of api_function line = bucket))
        as [Heq|Hne].
      * subst bucket. rewrite filter_cons_True by done.
        rewrite lookup_insert_eq. cbn [length from_option]. unfold id.
        lia.
      * rewrite filter_cons_False by done.
        rewrite lookup_insert_ne by done. lia.
Qed.

End Usage.

(** C10: when the search returns, [analyze_api_usage] returns statistics in
    which ['total_calls'] is the number of search results, the counts
    stored under ['patterns'] add up to ['total_calls'], the keys under
    ['patterns'] are among the four buckets, and each bucket counts the
    results whose line the [if]/[elif] chain puts there, every result
    falling in exactly one bucket. *)
Theorem analyze_api_usage_patterns_total (client_search : SearchFn)
    (api_function : string) (results : list MatchRecord) :
  client_search (symbol_args api_function 100) = Ok results →
  ∃ stats,
    result (analyze_api_usage client_search api_function) = Done stats
    ∧ total_calls stats = Z.of_nat (length results)
    ∧ sum_counts (patterns stats) = total_calls stats
    ∧ dom (patterns stats) ⊆ pattern_buckets
    ∧ (∀ bucket,
         default 0 (patterns stats !! bucket) =
           Z.of_nat (length (filter
             (λ r : MatchRecord, pattern_of api_function r.2 = bucket)
             results)))
    ∧ Forall (λ r : MatchRecord,
                pattern_of api_function r.2 ∈ pattern_buckets) results.
Proof.
  intros Hok.
  unfold analyze_api_usage, result, bind, search. rewrite Hok. simpl.
  pose proof (usage_loop_patterns api_function results ∅ ∅ ∅) as Hloop.
  cbn zeta in Hloop.
  destruct (usage_loop api_function results (∅, ∅, ∅)) as [[fs dirs] pats].
  simpl in *. destruct Hloop as (Hsum & Hdom & Hcount).
  eexists. split; [reflexivity|]. simpl.
  split; [done|]. split; [by rewrite Hsum|]. split; [set_solver|].
  split.
  - intros bucket. rewrite Hcount, lookup_empty. simpl. lia.
  - apply Forall_forall. intros r _. apply pattern_of_bucket.
Qed.

Lemma analyze_api_usage_patterns_total_witness :
  let results :=
    [("dom/a.cpp", 1, "x = new createElement();");
     ("dom/b.cpp", 2, "doc->createElement(tag)");
     ("js/c.cpp", 3, "createElement::make()");
     ("README", 4, "createElement")] in
  let client := table_client [("createElement", Ok results)] in
  ∃ stats,
    result (analyze_api_usage client "createElement") = Done stats
    ∧ total_calls stats = Z.of_nat (length results)
    ∧ sum_counts (patterns stats) = total_calls stats
    ∧ dom (patterns stats) ⊆ pattern_buckets
    ∧ (∀ bucket,
         default 0 (patterns stats !! bucket) =
           Z.of_nat (length (filter
             (λ r : MatchRecord, pattern_of "createElement" r.2 = bucket)
             results)))
    ∧ Forall (λ r : MatchRecord,
                pattern_of "createElement" r.2 ∈ pattern_buckets) results.
Proof.
  intros results client.
  apply (analyze_api_usage_patterns_total client "createElement" results).
  reflexivity.
Defined.

(** ** [get_definition] *)

(** C8: against a transport that returns an empty payload,
    [get_definition] returns the not-found value: not an empty string and
    not an error; and whatever the transport does, it never returns an
    empty string. *)
Theorem get_definition_not_found
    (transport_send : string → list (string * string) → Response string)
    (definition_request :
       string → string → option string → string * list (string * string))
    (symbol repo : string) (path_filter : option string)
    (log_requests : bool) :
  let request := definition_request repo symbol path_filter in
  let answer :=
    get_definition transport_send definition_request
      symbol repo path_filter log_requests in
  transport_send request.1 request.2 = Ok "" →
  answer = Ok None
  ∧ answer ≠ Ok (Some "")
  ∧ (∀ e, answer ≠ Err e)
  ∧ (∀ other_transport,
       get_definition other_transport definition_request
         symbol repo path_filter log_requests ≠ Ok (Some "")).
Proof.
  intros request answer Hempty.
  assert (answer = Ok None) as ->.
  { unfold answer, get_definition, client_get_definition. simpl.
    fold request. destruct request as [endpoint params]. simpl in Hempty.
    by rewrite Hempty. }
  split; [done|]. split; [done|]. split; [done|].
  intros other. unfold get_definition, client_get_definition. simpl.
  destruct (definition_request _ _ _) as [endpoint params].
  destruct (other endpoint params) as [payload|e]; [|done].
  case_decide; [done|]. intros [=]. congruence.
Qed.

Lemma get_definition_not_found_witness :
  let transport := λ (_ : string) (_ : list (string * string)), Ok "" in
  let builder := λ (repo symbol : string) (path_filter : option string),
    (repo +:+ "/search", [("q", "id:" +:+ symbol)]) in
  let answer :=
    get_definition transport builder "Missing::Symbol" "mozilla-central"
      None false in
  answer = Ok None
  ∧ answer ≠ Ok (Some "")
  ∧ (∀ e, answer ≠ Err e)
  ∧ (∀ other_transport,
       get_definition other_transport builder "Missing::Symbol"
         "mozilla-central" None false ≠ Ok (Some "")).
Proof.
  intros transport builder answer.
  apply (get_definition_not_found transport builder "Missing::Symbol"
           "mozilla-central" None false).
  reflexivity.
Defined.

(** ** The bounded traversal *)

Section Traversal.

Variable client_search : SearchFn.

Local Abbreviation gch := (get_class_hierarchy client_search).
Local Abbreviation query := (λ c : string, symbol_cpp_args c 30).

(** C1, as the code has it: with depth 0 the root is still expanded once;
    its children are the classes found for it, in the order found, each
    as a childless node, and no further request is sent.  An exception
    of that search is raised. *)
Theorem depth_zero_children_are_leaves (room : nat) (base_class : string) :
  result (gch (S room) base_class 0) =
    match client_search (query base_class) with
    | Ok results =>
        Done (Node base_class
                (leaf <$> collect_implementations results []))
    | Err e => Raised e
    end
  ∧ requests (gch (S room) base_class 0) = [query base_class].
Proof.
  destruct (client_search (query base_class)) as [results|e] eqn:Hq.
  - by apply gch_leaves.
  - by apply gch_raise.
Qed.

(** C2, as the code has it: no set of ancestors is kept.  With a positive
    depth every class found for the root becomes a child whose subtree is
    the hierarchy of that class built on its own with the depth lowered
    by one, whether or not the class is the root again or another
    ancestor; only the depth ends the recursion. *)
Theorem children_expanded_whatever_the_ancestors (room : nat)
    (base_class : string) (depth : Z) (results : list MatchRecord)
    (h : Hierarchy) :
  depth > 0 →
  client_search (query base_class) = Ok results →
  result (gch (S room) base_class depth) = Done h →
  class_of h = base_class
  ∧ Forall2
      (λ impl sub,
         result (gch room (impl_class impl) (depth - 1)) = Done sub)
      (collect_implementations results []) (derived_of h).
Proof.
  intros Hd Hq.
  destruct (gch_rec client_search room base_class depth results)
    as [-> _]; [done..|].
  destruct (result (for_append _ _ _)) as [ds| |] eqn:Hloop; [|done..].
  intros [=<-]. split; [done|].
  apply for_append_Done_inv in Hloop as (hs & -> & Hhs);
    [done|intros ?; apply framed_get_class_hierarchy].
Qed.

(** C3, as the code has it: an exception raised while a child is expanded
    leaves the loop and the traversal; the whole call raises it, no tree
    is returned, and the classes after the failing one are not
    searched. *)
Theorem failing_branch_aborts_traversal (room : nat) (base_class : string)
    (depth : Z) (results : list MatchRecord)
    (before : list Implementation) (failing : Implementation)
    (after : list Implementation) (subtrees : list Hierarchy) (e : Exn) :
  depth > 0 →
  client_search (query base_class) = Ok results →
  collect_implementations results [] = before ++ failing :: after →
  Forall2
    (λ impl sub,
       result (gch room (impl_class impl) (depth - 1)) = Done sub)
    before subtrees →
  result (gch room (impl_class failing) (depth - 1)) = Raised e →
  result (gch (S room) base_class depth) = Raised e
  ∧ requests (gch (S room) base_class depth) =
      query base_class ::
        concat ((λ impl,
                   requests (gch room (impl_class impl) (depth - 1)))
                  <$> before)
        ++ requests (gch room (impl_class failing) (depth - 1)).
Proof.
  intros Hd Hq Himpls Hbefore Hfail.
  destruct (gch_rec client_search room base_class depth results)
    as [-> ->]; [done..|].
  rewrite Himpls.
  destruct (for_append_Raised (expand_child client_search room depth)
    (λ x, framed_get_class_hierarchy client_search room _ _)
    before failing after subtrees [] e Hbefore Hfail) as [-> ->].
  done.
Qed.


(** C9: for a depth [d >= 0], a returned tree has at most [d + 1] levels
    below the root; the nodes [d + 1] levels below the root have an
    empty ['derived'] list; and the requests sent are the searches for
    the nodes at most [d] levels below the root, one for each, parents
    first, so that no path carries more than [d + 1] expansions. *)
Theorem get_class_hierarchy_depth_bound (room : nat) (base_class : string)
    (depth : Z) (h : Hierarchy) :
  0 ≤ depth →
  result (gch room base_class depth) = Done h →
  Z.of_nat (height h) ≤ depth + 1
  ∧ (∀ node, node ∈ level (S (Z.to_nat depth)) h → derived_of node = [])
  ∧ level (S (S (Z.to_nat depth))) h = []
  ∧ requests (gch room base_class depth) =
      query <$> labels_upto (Z.to_nat depth) h.
Proof.
  intros Hd Hh.
  destruct (gch_shape client_search room base_class depth h Hd Hh)
    as (Hheight & Hlevel & Hreq).
  split; [lia|]. split; [done|]. split; [|done].
  by apply level_below_empty.
Qed.

End Traversal.

(** ** The traversal on the example clients *)

(** The chain that the traversal builds over [client_cycle] from ["A"] with
    depth 5. *)
Example get_class_hierarchy_cycle_chain :
  result (get_class_hierarchy client_cycle 6 "A" 5) = Done cycle_chain.
Proof. vm_compute. reflexivity. Qed.

(** C1 fails as stated: with depth 0 the root of [client_derived] has the
    child ["B"]. *)
Lemma depth_zero_root_has_children :
  ¬ childless_at_depth_zero client_derived "A".
Proof.
  intros Hclaim.
  specialize (Hclaim 1%nat (Node "A" [Node "B" []])).
  discriminate Hclaim. vm_compute. reflexivity.
Qed.

(** C2 fails as stated: over [client_cycle] the tree is not
    [A → B → A] with a final leaf; ["A"] and ["B"] are searched three times
    each, under themselves. *)
Lemma cycle_is_expanded_again :
  result (get_class_hierarchy client_cycle 6 "A" 5)
    ≠ Done (Node "A" [Node "B" [Node "A" []]])
  ∧ requests (get_class_hierarchy client_cycle 6 "A" 5)
      = (λ c, symbol_cpp_args c 30) <$> ["A"; "B"; "A"; "B"; "A"; "B"].
Proof.
  split; [|vm_compute; reflexivity].
  rewrite get_class_hierarchy_cycle_chain. discriminate.
Qed.

Lemma children_expanded_whatever_the_ancestors_witness :
  class_of cycle_chain = "A"
  ∧ Forall2
      (λ impl sub,
         result (get_class_hierarchy client_cycle 5 (impl_class impl) (5 - 1))
           = Done sub)
      (collect_implementations [("b.h", 3, "class B : public A {")] [])
      (derived_of cycle_chain).
Proof.
  apply (children_expanded_whatever_the_ancestors client_cycle 5 "A" 5
           [("b.h", 3, "class B : public A {")] cycle_chain).
  - reflexivity.
  - reflexivity.
  - vm_compute. reflexivity.
Defined.

(** C3 fails as stated: over [client_one_failure] the failing search for
    ["Y"] ends the whole traversal with its exception; no tree is
    returned and ["Z"] is never searched. *)
Lemma one_failure_aborts_the_traversal :
  ¬ returns_a_tree client_one_failure 3 "R" 2
  ∧ result (get_class_hierarchy client_one_failure 3 "R" 2)
      = Raised "request timed out"
  ∧ requests (get_class_hierarchy client_one_failure 3 "R" 2)
      = (λ c, symbol_cpp_args c 30) <$> ["R"; "X"; "X1"; "Y"].
Proof.
  split; [|split; vm_compute; reflexivity].
  intros [h Hh]. vm_compute in Hh. discriminate Hh.
Qed.

Lemma failing_branch_aborts_traversal_witness :
  result (get_class_hierarchy client_one_failure 3 "R" 2)
    = Raised "request timed out"
  ∧ requests (get_class_hierarchy client_one_failure 3 "R" 2) =
      symbol_cpp_args "R" 30 ::
        concat ((λ impl,
                   requests (get_class_hierarchy client_one_failure 2
                               (impl_class impl) (2 - 1)))
                  <$> [mkImplementation "X" "x.h" 1 "class X : public R {"])
        ++ requests (get_class_hierarchy client_one_failure 2
                       (impl_class
                          (mkImplementation "Y" "y.h" 1
                             "class Y : public R {")) (2 - 1)).
Proof.
  apply (failing_branch_aborts_traversal client_one_failure 2 "R" 2
           [("x.h", 1, "class X : public R {");
            ("y.h", 1, "class Y : public R {");
            ("z.h", 1, "class Z : public R {")]
           [mkImplementation "X" "x.h" 1 "class X : public R {"]
           (mkImplementation "Y" "y.h" 1 "class Y : public R {")
           [mkImplementation "Z" "z.h" 1 "class Z : public R {"]
           [Node "X" [Node "X1" []]]
           "request timed out").
  - reflexivity.
  - reflexivity.
  - vm_compute. reflexivity.
  - constructor; [vm_compute; reflexivity|constructor].
  - vm_compute. reflexivity.
Defined.



Lemma get_class_hierarchy_depth_bound_witness :
  Z.of_nat (height cycle_chain) ≤ 5 + 1
  ∧ (∀ node, node ∈ level (S (Z.to_nat 5)) cycle_chain →
             derived_of node = [])
  ∧ level (S (S (Z.to_nat 5))) cycle_chain = []
  ∧ requests (get_class_hierarchy client_cycle 6 "A" 5) =
      (λ c, symbol_cpp_args c 30) <$> labels_upto (Z.to_nat 5) cycle_chain.
Proof.
  apply (get_class_hierarchy_depth_bound client_cycle 6 "A" 5 cycle_chain).
  - discriminate.
  - vm_compute. reflexivity.
Defined.

(** * Further properties of the code *)

(** ** Strings and the class pattern *)

#[local] Arguments String.append !_ _ / : simpl nomatch.

Lemma append_assoc (a b c : string) : (a +:+ b) +:+ c = a +:+ (b +:+ c).
Proof. induction a as [|x a IH]; simpl; by f_equal. Qed.

Lemma chars_app (a b : string) : chars (a +:+ b) = chars a ++ chars b.
Proof. induction a as [|x a IH]; simpl; by f_equal. Qed.

Lemma strip_prefix_Some (p : string) : ∀ s r,
  strip_prefix p s = Some r → s = p +:+ r.
Proof.
  induction p as [|a p IH]; intros s r; simpl.
  - by intros [=->].
  - destruct s as [|b s]; [done|].
    destruct (Ascii.eqb a b) eqn:Hab; [|done].
    apply Ascii.eqb_eq in Hab as ->. by intros ->%IH.
Qed.

Lemma strip_prefix_app (p r : string) : strip_prefix p (p +:+ r) = Some r.
Proof.
  induction p as [|a p IH]; simpl; [by destruct r|].
  by rewrite Ascii.eqb_refl.
Qed.

Lemma contains_unfold (needle hay : string) :
  contains needle hay =
    match strip_prefix needle hay with
    | Some _ => true
    | None =>
        match hay with
        | String _ hay' => contains needle hay'
        | EmptyString => false
        end
    end.
Proof. by destruct hay. Qed.

Lemma contains_app (needle before after : string) :
  contains needle (before +:+ needle +:+ after) = true.
Proof.
  induction before as [|c before IH]; rewrite contains_unfold.
  - simpl. by rewrite strip_prefix_app.
  - simpl. by destruct (strip_prefix _ _).
Qed.

Lemma word_run_spec (s : string) :
  ∃ rest, s = word_run s +:+ rest
          ∧ Forall (λ c, is_word c = true) (chars (word_run s))
          ∧ match rest with
            | String c _ => is_word c = false
            | EmptyString => True
            end.
Proof.
  induction s as [|c s (rest & Hs & Hall & Hrest)]; simpl.
  - exists EmptyString. by repeat split.
  - destruct (is_word c) eqn:Hc.
    + exists rest. simpl. split; [by f_equal|]. split; [by constructor|done].
    + exists (String c s). by repeat split.
Qed.

Lemma match_word_spec (s w : string) :
  match_word s = Some w →
  ∃ rest, s = w +:+ rest ∧ is_identifier w
          ∧ match rest with
            | String c _ => is_word c = false
            | EmptyString => True
            end.
Proof.
  unfold match_word. destruct (word_run_spec s) as (rest & Hs & Hall & Hrest).
  destruct (word_run s) as [|c w'] eqn:Hw; [done|]. intros [=<-].
  exists rest. by repeat split.
Qed.

Lemma match_spaces_word_spec (s : string) : ∀ w,
  match_spaces_word s = Some w →
  ∃ ws rest, s = ws +:+ w +:+ rest
             ∧ Forall (λ c, is_space c = true) (chars ws)
             ∧ is_identifier w
             ∧ match rest with
               | String c _ => is_word c = false
               | EmptyString => True
               end.
Proof.
  induction s as [|c s IH]; intros w; [done|]. cbn [match_spaces_word].
  assert (match_word (String c s) = Some w →
          ∃ ws rest, String c s = ws +:+ w +:+ rest
             ∧ Forall (λ c, is_space c = true) (chars ws)
             ∧ is_identifier w
             ∧ match rest with
               | String c _ => is_word c = false
               | EmptyString => True
               end) as Hword.
  { intros (rest & Hs & Hw & Hrest)%match_word_spec.
    exists EmptyString, rest. simpl.
    split; [done|]. split; [constructor|done]. }
  destruct (is_space c) eqn:Hc; [|done].
  destruct (match_spaces_word s) as [w'|] eqn:Hs; [|done].
  intros [=->]. destruct (IH w eq_refl) as (ws & rest & -> & Hws & Hw & Hrest).
  exists (String c ws), rest. simpl. split; [done|].
  split; [by constructor|done].
Qed.

Lemma match_class_at_spec (s w : string) :
  match_class_at s = Some w →
  ∃ ws after, class_occurrence s EmptyString ws w after.
Proof.
  unfold match_class_at.
  destruct (strip_prefix "class" s) as [[|c rest]|] eqn:Hp; [done| |done].
  apply strip_prefix_Some in Hp as ->.
  destruct (is_space c) eqn:Hc; [|done].
  intros (ws & after & -> & Hws & Hw & Hafter)%match_spaces_word_spec.
  exists (String c ws), after. unfold class_occurrence, is_blank. simpl.
  split; [done|]. split; [|done]. split; [done|by constructor].
Qed.

(** What the pattern returns is an occurrence of the keyword, whitespace
    and that identifier in the line. *)
Lemma re_search_class_sound (line : string) : ∀ w,
  re_search_class line = Some w →
  ∃ before ws after, class_occurrence line before ws w after.
Proof.
  induction line as [|c line IH]; intros w; cbn [re_search_class].
  - destruct (match_class_at EmptyString) eqn:Hm; [|done].
    intros [=->]. apply match_class_at_spec in Hm as (ws & after & Hocc).
    by exists EmptyString, ws, after.
  - destruct (match_class_at (String c line)) eqn:Hm.
    + intros [=->]. apply match_class_at_spec in Hm as (ws & after & Hocc).
      by exists EmptyString, ws, after.
    + intros (before & ws & after & -> & Hrest)%IH.
      exists (String c before), ws, after. by split.
Qed.

Lemma match_word_is_Some (w rest : string) :
  is_identifier w → is_Some (match_word (w +:+ rest)).
Proof.
  intros [Hne Hall]. destruct w as [|c w]; [done|].
  apply Forall_cons in Hall as [Hc _].
  unfold match_word. simpl. rewrite Hc. eauto.
Qed.

Lemma match_spaces_word_is_Some (ws w rest : string) :
  Forall (λ c, is_space c = true) (chars ws) →
  is_identifier w →
  is_Some (match_spaces_word (ws +:+ w +:+ rest)).
Proof.
  intros Hws Hw. induction ws as [|c ws IH].
  - pose proof (match_word_is_Some w rest Hw) as Hsome.
    destruct Hw as [Hne _]. destruct w as [|a w]; [done|].
    simpl in *. destruct (is_space a); [|done].
    by destruct (match_spaces_word (w +:+ rest)).
  - apply Forall_cons in Hws as [Hc Hws]. simpl. rewrite Hc.
    destruct (IH Hws) as [w' ->]. eauto.
Qed.

(** Every occurrence makes the pattern match somewhere. *)
Lemma re_search_class_complete (line before ws w after : string) :
  class_occurrence line before ws w after →
  is_Some (re_search_class line).
Proof.
  intros (-> & [Hne Hws] & Hw & _).
  induction before as [|c before IH].
  - destruct ws as [|c ws]; [done|]. apply Forall_cons in Hws as [Hc Hws].
    assert (is_Some (match_class_at
              ("class" +:+ String c ws +:+ w +:+ after))) as [w' Hw'].
    { unfold match_class_at. rewrite strip_prefix_app. simpl. rewrite Hc.
      by apply match_spaces_word_is_Some. }
    change (EmptyString +:+ ?s) with s.
    destruct ("class" +:+ String c ws +:+ w +:+ after) eqn:Heq;
      cbn [re_search_class]; rewrite Hw'; eauto.
  - change (String c before +:+ ?s) with (String c (before +:+ s)).
    cbn [re_search_class].
    destruct (match_class_at _); [eauto|apply IH].
Qed.

(** ** [str.strip] *)

Lemma lstrip_head (s : string) (c : ascii) :
  head (chars (lstrip s)) = Some c → is_space c = false.
Proof.
  induction s as [|a s IH]; [done|]. simpl.
  destruct (is_space a) eqn:Ha; [done|]. simpl. by intros [=<-].
Qed.

Lemma rstrip_head (s : string) :
  rstrip s = EmptyString ∨ head (chars (rstrip s)) = head (chars s).
Proof.
  destruct s as [|a s]; [by left|]. simpl.
  destruct (rstrip s); [destruct (is_space a)|]; auto.
Qed.

Lemma rstrip_last (s : string) (c : ascii) :
  last (chars (rstrip s)) = Some c → is_space c = false.
Proof.
  induction s as [|a s IH]; [done|]. simpl.
  destruct (rstrip s) as [|b r] eqn:Hr.
  - destruct (is_space a) eqn:Ha; [done|]. simpl. by intros [=<-].
  - simpl in *. done.
Qed.

Lemma lstrip_all_space (s : string) :
  lstrip s = EmptyString → Forall (λ c, is_space c = true) (chars s).
Proof.
  induction s as [|a s IH]; [constructor|]. simpl.
  destruct (is_space a) eqn:Ha; [|done]. intros ?%IH. by constructor.
Qed.

Lemma lstrip_suffix (s : string) :
  ∃ ws, s = ws +:+ lstrip s ∧ Forall (λ c, is_space c = true) (chars ws).
Proof.
  induction s as [|a s (ws & Hs & Hws)].
  - by exists EmptyString.
  - simpl. destruct (is_space a) eqn:Ha.
    + exists (String a ws). simpl. split; [by f_equal|by constructor].
    + by exists EmptyString.
Qed.

Lemma rstrip_all_space (s : string) :
  rstrip s = EmptyString → Forall (λ c, is_space c = true) (chars s).
Proof.
  induction s as [|a s IH]; [constructor|]. simpl.
  destruct (rstrip s) as [|b r]; [|done].
  destruct (is_space a) eqn:Ha; [|done]. intros _. constructor; auto.
Qed.

Lemma strip_all_space (s : string) :
  strip s = EmptyString → Forall (λ c, is_space c = true) (chars s).
Proof.
  unfold strip. intros Hs%rstrip_all_space.
  destruct (lstrip_suffix s) as (ws & Heq & Hws). rewrite Heq, chars_app.
  by apply Forall_app.
Qed.

Lemma strip_ends (s : string) :
  (∀ c, head (chars (strip s)) = Some c → is_space c = false)
  ∧ (∀ c, last (chars (strip s)) = Some c → is_space c = false).
Proof.
  split; [|apply rstrip_last]. unfold strip. intros c.
  destruct (rstrip_head (lstrip s)) as [->| ->]; [done|apply lstrip_head].
Qed.

(** ** More on [find_implementations] *)

Lemma collect_implementations_omap (results : list MatchRecord) :
  ∀ acc,
  collect_implementations results acc = acc ++ omap implementation_of results.
Proof.
  induction results as [|[[path line_num] line] results IH]; intros acc.
  - by rewrite app_nil_r.
  - cbn [collect_implementations omap list_omap]. unfold implementation_of.
    cbn [fst snd]. destruct (re_search_class line) as [cls|].
    + rewrite IH, <-app_assoc. done.
    + apply IH.
Qed.

Lemma find_implementations_Done (client_search : SearchFn)
    (interface : string) (limit : Z) (results : list MatchRecord) :
  client_search (symbol_cpp_args interface limit) = Ok results →
  result (find_implementations client_search interface limit) =
    Done (omap implementation_of results).
Proof.
  intros Hok.
  destruct (find_implementations_run client_search interface limit)
    as [-> _].
  by rewrite Hok, collect_implementations_omap.
Qed.

(** X1: every implementation that [find_implementations] returns comes from
    one of the search results: it carries the path and the line number of
    that result, and its class is a non-empty identifier that stands in
    the line of that result after the keyword [class] and whitespace and
    cannot be extended there. *)
Theorem find_implementations_sound (client_search : SearchFn)
    (interface : string) (limit : Z) (results : list MatchRecord) :
  client_search (symbol_cpp_args interface limit) = Ok results →
  ∃ impls,
    result (find_implementations client_search interface limit) = Done impls
    ∧ Forall
        (λ impl,
           ∃ r : MatchRecord,
             r ∈ results
             ∧ impl_path impl = r.1.1 ∧ impl_line impl = r.1.2
             ∧ ∃ before ws after,
                 class_occurrence r.2 before ws (impl_class impl) after)
        impls.
Proof.
  intros Hok. eexists. split; [by apply find_implementations_Done|].
  apply Forall_forall. intros impl (r & Hr & Himpl)%list_elem_of_omap.
  exists r. split; [done|]. unfold implementation_of in Himpl.
  destruct (re_search_class r.2) as [cls|] eqn:Hcls; [|done].
  injection Himpl as <-. simpl. split; [done|]. split; [done|].
  by apply re_search_class_sound.
Qed.

Lemma find_implementations_sound_witness :
  ∃ impls,
    result (find_implementations client_cycle "B" 30) = Done impls
    ∧ Forall
        (λ impl,
           ∃ r : MatchRecord,
             r ∈ [("a.h", 8, "  friend class A;")]
             ∧ impl_path impl = r.1.1 ∧ impl_line impl = r.1.2
             ∧ ∃ before ws after,
                 class_occurrence r.2 before ws (impl_class impl) after)
        impls.
Proof.
  apply (find_implementations_sound client_cycle "B" 30
           [("a.h", 8, "  friend class A;")]).
  reflexivity.
Defined.

(** X2: [find_implementations] returns one implementation for each search
    result whose line holds the keyword [class], whitespace and an
    identifier, in the order of the results, and none for the other
    results. *)
Theorem find_implementations_selects (client_search : SearchFn)
    (interface : string) (limit : Z) (results : list MatchRecord) :
  client_search (symbol_cpp_args interface limit) = Ok results →
  ∃ impls,
    result (find_implementations client_search interface limit) = Done impls
    ∧ (λ impl, (impl_path impl, impl_line impl)) <$> impls =
        key_of <$> filter
          (λ r : MatchRecord, is_Some (re_search_class r.2)) results
    ∧ ∀ line,
        is_Some (re_search_class line) ↔
        ∃ before ws w after, class_occurrence line before ws w after.
Proof.
  intros Hok. eexists. split; [by apply find_implementations_Done|].
  split.
  - clear Hok. induction results as [|r results IH]; [done|].
    cbn [omap list_omap]. unfold implementation_of at 1.
    destruct (re_search_class r.2) as [cls|] eqn:Hcls.
    + rewrite filter_cons_True by (rewrite Hcls; eauto).
      rewrite !fmap_cons, IH. done.
    + rewrite filter_cons_False by (rewrite Hcls; by intros [? [=]]).
      apply IH.
  - intros line. split.
    + intros [w (before & ws & after & Hocc)%re_search_class_sound]. eauto 6.
    + intros (before & ws & w & after & Hocc).
      by eapply re_search_class_complete.
Qed.

Lemma find_implementations_selects_witness :
  ∃ impls,
    result (find_implementations client_one_failure "R" 30) = Done impls
    ∧ (λ impl, (impl_path impl, impl_line impl)) <$> impls =
        key_of <$> filter
          (λ r : MatchRecord, is_Some (re_search_class r.2))
          [("x.h", 1, "class X : public R {");
           ("y.h", 1, "class Y : public R {");
           ("z.h", 1, "class Z : public R {")]
    ∧ ∀ line,
        is_Some (re_search_class line) ↔
        ∃ before ws w after, class_occurrence line before ws w after.
Proof.
  apply (find_implementations_selects client_one_failure "R" 30
           [("x.h", 1, "class X : public R {");
            ("y.h", 1, "class Y : public R {");
            ("z.h", 1, "class Z : public R {")]).
  reflexivity.
Defined.

(** X3: the ['full_line'] of every implementation is not empty and neither
    starts nor ends with whitespace. *)
Theorem find_implementations_full_line (client_search : SearchFn)
    (interface : string) (limit : Z) (results : list MatchRecord) :
  client_search (symbol_cpp_args interface limit) = Ok results →
  ∃ impls,
    result (find_implementations client_search interface limit) = Done impls
    ∧ Forall
        (λ impl,
           impl_full_line impl ≠ EmptyString
           ∧ (∀ c, head (chars (impl_full_line impl)) = Some c →
                   is_space c = false)
           ∧ (∀ c, last (chars (impl_full_line impl)) = Some c →
                   is_space c = false))
        impls.
Proof.
  intros Hok. eexists. split; [by apply find_implementations_Done|].
  apply Forall_forall. intros impl (r & Hr & Himpl)%list_elem_of_omap.
  unfold implementation_of in Himpl.
  destruct (re_search_class r.2) as [cls|] eqn:Hcls; [|done].
  injection Himpl as <-. simpl. split; [|apply strip_ends].
  intros Hall%strip_all_space.
  apply re_search_class_sound in Hcls
    as (before & ws & after & Hline & _).
  rewrite Hline, !chars_app in Hall.
  apply Forall_app in Hall as [_ Hall].
  apply Forall_app in Hall as [Hall _].
  apply Forall_cons in Hall as [Hc _]. done.
Qed.

Lemma find_implementations_full_line_witness :
  ∃ impls,
    result (find_implementations client_cycle "B" 30) = Done impls
    ∧ Forall
        (λ impl,
           impl_full_line impl ≠ EmptyString
           ∧ (∀ c, head (chars (impl_full_line impl)) = Some c →
                   is_space c = false)
           ∧ (∀ c, last (chars (impl_full_line impl)) = Some c →
                   is_space c = false))
        impls.
Proof.
  apply (find_implementations_full_line client_cycle "B" 30
           [("a.h", 8, "  friend class A;")]).
  reflexivity.
Defined.

(** ** More on the duplicate-removing loop and [find_method_calls] *)

Lemma dedup_nil_iff (l : list MatchRecord) : dedup l = [] ↔ l = [].
Proof.
  split; [|by intros ->]. destruct l as [|r l]; [done|].
  unfold dedup. rewrite dedup_loop_cons. by rewrite decide_False by set_solver.
Qed.

Lemma dedup_length_keys (l : list MatchRecord) :
  length (dedup l) = size (keys l).
Proof.
  rewrite <-dedup_keys. unfold keys.
  rewrite size_list_to_set by apply dedup_loop_NoDup.
  by rewrite length_fmap.
Qed.

(** X4: the loop loses no key and keeps one record for each: the keys of
    its output are the keys of its input, its length is the number of
    distinct keys of the input, at most the length of the input, and it
    is empty only for an empty input. *)
Theorem dedup_counts_distinct_keys (all_results : list MatchRecord) :
  keys (dedup all_results) = keys all_results
  ∧ length (dedup all_results) = size (keys all_results)
  ∧ (length (dedup all_results) ≤ length all_results)%nat
  ∧ (dedup all_results = [] ↔ all_results = []).
Proof.
  split; [apply dedup_keys|]. split; [apply dedup_length_keys|]. split.
  - apply sublist_length, dedup_loop_sublist.
  - apply dedup_nil_iff.
Qed.

Section MethodCalls.

Variable client_search : SearchFn.
Context (class_name method_name : string) (limit : Z).

Local Abbreviation symbol_search :=
  (symbol_cpp_args (class_name +:+ "::" +:+ method_name) limit).
Local Abbreviation id_search := (id_cpp_args method_name limit).
Local Abbreviation run :=
  (find_method_calls client_search class_name method_name limit).

Lemma find_method_calls_result :
  result run =
    match client_search symbol_search with
    | Err e => Raised e
    | Ok [] =>
        match client_search id_search with
        | Err e => Raised e
        | Ok found => Done (dedup found)
        end
    | Ok (r :: found) => Done (dedup (r :: found))
    end.
Proof.
  unfold find_method_calls, result, bind, search, ret. cbn beta.
  destruct (client_search symbol_search) as [[|r first]|e]; [|done..].
  by destruct (client_search id_search).
Qed.

(** X5: [find_method_calls] raises exactly the exception of the symbol
    search, or that of the identifier search when the symbol search found
    nothing; otherwise it returns. *)
Theorem find_method_calls_raises (e : Exn) :
  (result run = Raised e ↔
     client_search symbol_search = Err e
     ∨ (client_search symbol_search = Ok []
        ∧ client_search id_search = Err e))
  ∧ result run ≠ RecursionError.
Proof.
  rewrite find_method_calls_result.
  destruct (client_search symbol_search) as [[|r first]|e1].
  - destruct (client_search id_search) as [second|e2].
    + split; [|done]. split; [done|]. by intros [[=]|[_ [=]]].
    + split; [|done]. split.
      * intros [=->]. by right.
      * by intros [[=]|[_ [=->]]].
  - split; [|done]. split; [done|]. by intros [[=]|[[=] _]].
  - split; [|done]. split.
    + intros [=->]. by left.
    + by intros [[=->]|[[=] _]].
Qed.

(** X6: a list that [find_method_calls] returns is a sublist of what the
    search that was used found, with one record for each distinct key, and
    it is empty only when both the symbol search and the identifier search
    found nothing. *)
Theorem find_method_calls_returns (out : list MatchRecord) :
  result run = Done out →
  (out = [] ↔
     client_search symbol_search = Ok [] ∧ client_search id_search = Ok [])
  ∧ ∃ found,
      (client_search symbol_search = Ok found
       ∨ (client_search symbol_search = Ok []
          ∧ client_search id_search = Ok found))
      ∧ sublist out found
      ∧ keys out = keys found
      ∧ length out = size (keys found).
Proof.
  rewrite find_method_calls_result.
  destruct (client_search symbol_search) as [[|r first]|e1]; [| |done].
  - destruct (client_search id_search) as [second|e2]; [|done].
    intros [=<-]. split.
    + rewrite dedup_nil_iff. split; [by intros ->|by intros [_ [=]]].
    + exists second. split; [by right|].
      split; [apply dedup_loop_sublist|].
      split; [apply dedup_keys|apply dedup_length_keys].
  - intros [=<-]. split.
    + rewrite dedup_nil_iff. split; [done|by intros [[=] _]].
    + exists (r :: first). split; [by left|].
      split; [apply dedup_loop_sublist|].
      split; [apply dedup_keys|apply dedup_length_keys].
Qed.

End MethodCalls.

Lemma find_method_calls_returns_witness :
  ([("dom/a.cpp", 7, "ctx->CreateGain();")] = [] ↔
     client_gain
       (symbol_cpp_args ("AudioContext" +:+ "::" +:+ "CreateGain") 10)
       = Ok []
     ∧ client_gain (id_cpp_args "CreateGain" 10) = Ok [])
  ∧ ∃ found,
      (client_gain
         (symbol_cpp_args ("AudioContext" +:+ "::" +:+ "CreateGain") 10)
         = Ok found
       ∨ (client_gain
            (symbol_cpp_args ("AudioContext" +:+ "::" +:+ "CreateGain") 10)
            = Ok []
          ∧ client_gain (id_cpp_args "CreateGain" 10) = Ok found))
      ∧ sublist [("dom/a.cpp", 7, "ctx->CreateGain();")] found
      ∧ keys [("dom/a.cpp", 7, "ctx->CreateGain();")] = keys found
      ∧ length [("dom/a.cpp", 7, "ctx->CreateGain();")] = size (keys found).
Proof.
  apply (find_method_calls_returns client_gain "AudioContext" "CreateGain"
           10 [("dom/a.cpp", 7, "ctx->CreateGain();")]).
  vm_compute. reflexivity.
Defined.

(** ** More on [get_class_hierarchy] *)

Section ForAppendRequests.

Context {A B : Type} (body : A → M B).
Hypothesis body_framed : ∀ x, framed (body x).

(** What holds of the requests of every iteration holds of the requests of
    the loop. *)
Lemma for_append_requests_Forall (P : SearchArgs → Prop) (xs : list A) :
  ∀ acc : list B,
  Forall (λ x, Forall P (requests (body x))) xs →
  Forall P (requests (for_append body xs acc)).
Proof.
  induction xs as [|x xs IH]; intros acc Hall; [constructor|].
  apply Forall_cons in Hall as [Hx Hall]. simpl.
  destruct (result (body x)) as [b|e|] eqn:Hb.
  - destruct (bind_Done (body x) (λ b, for_append body xs (acc ++ [b])) b)
      as [_ ->]; [done|by apply framed_for_append|done|].
    apply Forall_app. split; [done|by apply IH].
  - by destruct (bind_Raised (body x)
                   (λ b, for_append body xs (acc ++ [b])) e Hb) as [_ ->].
  - by destruct (bind_RecursionError (body x)
                   (λ b, for_append body xs (acc ++ [b])) Hb) as [_ ->].
Qed.

(** A loop that raises does so in one of its iterations, whose requests
    are the last ones of the loop. *)
Lemma for_append_Raised_inv (xs : list A) : ∀ (acc : list B) (e : Exn),
  result (for_append body xs acc) = Raised e →
  ∃ x earlier,
    x ∈ xs ∧ result (body x) = Raised e
    ∧ requests (for_append body xs acc) = earlier ++ requests (body x).
Proof.
  induction xs as [|x xs IH]; intros acc e; [done|]. simpl.
  destruct (result (body x)) as [b|e'|] eqn:Hb.
  - destruct (bind_Done (body x) (λ b, for_append body xs (acc ++ [b])) b)
      as [-> ->]; [done|by apply framed_for_append|done|].
    intros (x' & earlier & Hx' & Hraise & ->)%IH.
    exists x', (requests (body x) ++ earlier).
    split; [by apply list_elem_of_further|]. split; [done|].
    by rewrite app_assoc.
  - destruct (bind_Raised (body x)
                (λ b, for_append body xs (acc ++ [b])) e' Hb) as [-> ->].
    intros [=->]. exists x, []. split; [apply list_elem_of_here|done].
  - by destruct (bind_RecursionError (body x)
                   (λ b, for_append body xs (acc ++ [b])) Hb) as [-> _].
Qed.

End ForAppendRequests.

Section TraversalRequests.

Variable client_search : SearchFn.

Local Abbreviation gch := (get_class_hierarchy client_search).
Local Abbreviation child := (expand_child client_search).
Local Abbreviation query := (λ c : string, symbol_cpp_args c 30).

Lemma gch_root (room : nat) (base_class : string) (depth : Z)
    (h : Hierarchy) :
  result (gch room base_class depth) = Done h → class_of h = base_class.
Proof.
  destruct room as [|room]; [done|].
  destruct (client_search (query base_class)) as [results|e] eqn:Hq;
    [|by destruct (gch_raise client_search room base_class depth e)
         as [-> _]].
  destruct (Z_le_gt_dec depth 0) as [Hd|Hd].
  - destruct (gch_leaves client_search room base_class depth results)
      as [-> _]; [done..|]. by intros [=<-].
  - destruct (gch_rec client_search room base_class depth results)
      as [-> _]; [done..|].
    destruct (result (for_append _ _ _)); [|done..]. by intros [=<-].
Qed.

Lemma gch_requests (room : nat) : ∀ base_class depth,
  Forall (λ args, ∃ c, args = query c)
    (requests (gch room base_class depth))
  ∧ (∀ e, result (gch room base_class depth) = Raised e →
       ∃ c, last (requests (gch room base_class depth)) = Some (query c)
            ∧ client_search (query c) = Err e)
  ∧ (∀ h, result (gch room base_class depth) = Done h →
       Forall (λ args, ∃ results, client_search args = Ok results)
         (requests (gch room base_class depth))).
Proof.
  induction room as [|room IH]; intros base_class depth.
  { split; [constructor|]. by split. }
  destruct (client_search (query base_class)) as [results|e] eqn:Hq.
  - destruct (Z_le_gt_dec depth 0) as [Hd|Hd].
    + destruct (gch_leaves client_search room base_class depth results)
        as [-> ->]; [done..|].
      split; [repeat constructor; eauto|]. split; [done|].
      intros _ _. repeat constructor. eauto.
    + destruct (gch_rec client_search room base_class depth results)
        as [-> ->]; [done..|].
      set (impls := collect_implementations results []).
      assert (∀ x, framed (child room depth x)) as Hframed
        by (intros ?; apply framed_get_class_hierarchy).
      split; [|split].
      * constructor; [eauto|].
        apply for_append_requests_Forall; [done|].
        apply Forall_forall. intros impl _. apply IH.
      * intros e. destruct (result (for_append _ _ _)) eqn:Hloop; [done| |done].
        intros [=->].
        apply for_append_Raised_inv in Hloop
          as (impl & earlier & _ & Hraise & ->); [|done].
        destruct (IH (impl_class impl) (depth - 1)) as (_ & Hlast & _).
        destruct (Hlast e Hraise) as (c & Hc & Herr).
        exists c. split; [|done].
        rewrite app_comm_cons, last_app. unfold expand_child. by rewrite Hc.
      * intros h. destruct (result (for_append _ _ _)) as [ds| |] eqn:Hloop;
          [|done..].
        intros _. constructor; [eauto|].
        apply for_append_Done_inv in Hloop as (hs & _ & Hhs); [|done].
        destruct (for_append_Done (child room depth) Hframed impls hs []
                    Hhs) as [_ ->].
        clear -Hhs IH. induction Hhs as [|impl h' impls hs Hh' _ IHall];
          [constructor|].
        rewrite fmap_cons. cbn [concat]. apply Forall_app. split; [|done].
        destruct (IH (impl_class impl) (depth - 1)) as (_ & _ & Hdone).
        by apply (Hdone h').
  - destruct (gch_raise client_search room base_class depth e)
      as [-> ->]; [done|].
    split; [repeat constructor; eauto|]. split; [|done].
    intros ? [=<-]. eauto.
Qed.

(** X7: every request that [get_class_hierarchy] sends is a symbol search
    restricted to C++ with limit 30, the first one for the base class.
    The call ends in one of three ways.  It raises an exception of the
    client, which is then the one that the client raised for the last
    request sent; or it raises [RecursionError], which happens only when
    the depth is not below the room for nested calls; or it returns, and
    then every request sent was answered. *)
Theorem get_class_hierarchy_requests (room : nat) (base_class : string)
    (depth : Z) :
  Forall (λ args, ∃ c, args = symbol_cpp_args c 30)
    (requests (gch room base_class depth))
  ∧ head (requests (gch (S room) base_class depth))
      = Some (symbol_cpp_args base_class 30)
  ∧ (∀ e, result (gch room base_class depth) = Raised e →
       ∃ c, last (requests (gch room base_class depth))
              = Some (symbol_cpp_args c 30)
            ∧ client_search (symbol_cpp_args c 30) = Err e)
  ∧ (result (gch room base_class depth) = RecursionError →
     (room ≤ Z.to_nat depth)%nat)
  ∧ (∀ h, result (gch room base_class depth) = Done h →
       Forall (λ args, ∃ results, client_search args = Ok results)
         (requests (gch room base_class depth))).
Proof.
  destruct (gch_requests room base_class depth) as (Hall & Hraise & Hdone).
  split; [done|]. split; [|split; [done|split; [|done]]].
  2:{ intros Hlimit. destruct (le_lt_dec room (Z.to_nat depth)); [done|].
      by apply gch_within_limit in Hlimit. }
  destruct (client_search (query base_class)) as [results|e] eqn:Hq.
  - destruct (Z_le_gt_dec depth 0) as [Hd|Hd].
    + by destruct (gch_leaves client_search room base_class depth results)
        as [_ ->].
    + by destruct (gch_rec client_search room base_class depth results)
        as [_ ->].
  - by destruct (gch_raise client_search room base_class depth e)
      as [_ ->].
Qed.

(** X8: the root of a returned tree carries the base class, and its
    children carry the classes found for the base class, one child for
    each implementation, in the order in which the search returned
    them. *)
Theorem get_class_hierarchy_children_order (room : nat)
    (base_class : string) (depth : Z) (h : Hierarchy) :
  result (gch room base_class depth) = Done h →
  class_of h = base_class
  ∧ ∃ results,
      client_search (symbol_cpp_args base_class 30) = Ok results
      ∧ class_of <$> derived_of h =
          impl_class <$> omap implementation_of results.
Proof.
  intros Hh. split; [by eapply gch_root|].
  destruct room as [|room]; [done|].
  destruct (client_search (query base_class)) as [results|e] eqn:Hq.
  2:{ destruct (gch_raise client_search room base_class depth e)
        as [Hr _]; [done|]. by rewrite Hr in Hh. }
  exists results. split; [done|].
  rewrite <-(app_nil_l (omap _ _)), <-collect_implementations_omap.
  destruct (Z_le_gt_dec depth 0) as [Hd|Hd].
  - destruct (gch_leaves client_search room base_class depth results)
      as [Hr _]; [done..|]. rewrite Hr in Hh. injection Hh as <-.
    simpl. by rewrite <-list_fmap_compose.
  - destruct (gch_rec client_search room base_class depth results)
      as [Hr _]; [done..|]. rewrite Hr in Hh.
    destruct (result (for_append _ _ _)) as [ds| |] eqn:Hloop; [|done..].
    injection Hh as <-.
    apply for_append_Done_inv in Hloop as (hs & -> & Hhs);
      [|intros ?; apply framed_get_class_hierarchy].
    clear Hr. simpl.
    induction Hhs as [|impl h' impls hs Hh' _ IHall]; [done|].
    rewrite !fmap_cons, IHall. f_equal. by eapply gch_root.
Qed.

(** X9: a depth below zero gives the same run as depth zero. *)
Theorem get_class_hierarchy_negative_depth (room : nat)
    (base_class : string) (depth : Z) :
  depth < 0 →
  result (gch room base_class depth) = result (gch room base_class 0)
  ∧ requests (gch room base_class depth) = requests (gch room base_class 0).
Proof.
  intros Hd. destruct room as [|room]; [done|].
  unfold result, requests. simpl.
  by replace (depth >? 0) with false by lia.
Qed.

End TraversalRequests.

Lemma get_class_hierarchy_children_order_witness :
  class_of cycle_chain = "A"
  ∧ ∃ results,
      client_cycle (symbol_cpp_args "A" 30) = Ok results
      ∧ class_of <$> derived_of cycle_chain =
          impl_class <$> omap implementation_of results.
Proof.
  apply (get_class_hierarchy_children_order client_cycle 6 "A" 5
           cycle_chain).
  vm_compute. reflexivity.
Defined.

Lemma get_class_hierarchy_negative_depth_witness :
  result (get_class_hierarchy client_derived 1 "A" (-3))
    = result (get_class_hierarchy client_derived 1 "A" 0)
  ∧ requests (get_class_hierarchy client_derived 1 "A" (-3))
    = requests (get_class_hierarchy client_derived 1 "A" 0).
Proof.
  apply (get_class_hierarchy_negative_depth client_derived 1 "A" (-3)).
  reflexivity.
Defined.

(** ** More on [analyze_api_usage] *)

Lemma size_list_to_set_le (l : list string) :
  (size (list_to_set l : gset string) ≤ length l)%nat.
Proof.
  induction l as [|x l IH]; [done|].
  rewrite list_to_set_cons, size_union_alt, size_singleton. simpl.
  pose proof (subseteq_size (list_to_set l ∖ {[x]}) (list_to_set l : gset string)
                ltac:(set_solver)).
  lia.
Qed.

Lemma split_slash_head_no_slash (p : string) :
  contains "/" (split_slash_head p) = false.
Proof.
  induction p as [|c p IH]; [done|]. simpl.
  destruct (Ascii.eqb c "/") eqn:Hc; [done|].
  rewrite contains_unfold. cbn [strip_prefix].
  rewrite Ascii.eqb_sym, Hc. exact IH.
Qed.

Lemma usage_loop_files (api_function : string) (results : list MatchRecord) :
  ∀ (fs : gset string) (dirs pats : gmap string Z),
  (usage_loop api_function results (fs, dirs, pats)).1.1 =
    list_to_set ((λ r : MatchRecord, r.1.1) <$> results) ∪ fs.
Proof.
  induction results as [|[[path line_num] line] results IH];
    intros fs dirs pats.
  - simpl. set_solver.
  - cbn [usage_loop]. rewrite IH, fmap_cons, list_to_set_cons. simpl.
    set_solver.
Qed.

Lemma usage_loop_directories (api_function : string)
    (results : list MatchRecord) :
  ∀ (fs : gset string) (dirs pats : gmap string Z),
  let dirs' := (usage_loop api_function results (fs, dirs, pats)).1.2 in
  sum_counts dirs' =
    sum_counts dirs
    + Z.of_nat (length (filter
        (λ r : MatchRecord, contains "/" r.1.1 = true) results))
  ∧ (∀ k, k ∈ dom dirs' →
       k ∈ dom dirs
       ∨ ∃ r : MatchRecord,
           r ∈ results ∧ contains "/" r.1.1 = true
           ∧ k = split_slash_head r.1.1)
  ∧ ∀ k,
      default 0 (dirs' !! k) =
        default 0 (dirs !! k)
        + Z.of_nat (length (filter
            (λ r : MatchRecord,
               contains "/" r.1.1 = true ∧ split_slash_head r.1.1 = k)
            results)).
Proof.
  induction results as [|[[path line_num] line] results IH];
    intros fs dirs pats; cbn zeta.
  - simpl. split; [lia|]. split; [auto|]. intros k. lia.
  - cbn [usage_loop].
    match goal with |- context [usage_loop _ _ (?a, ?b, ?c)] =>
      destruct (IH a b c) as (Hsum & Hdom & Hcount) end.
    cbn zeta in Hsum, Hdom, Hcount.
    destruct (contains "/" path) eqn:Hslash.
    + split; [|split].
      * rewrite Hsum, sum_counts_incr.
        rewrite filter_cons_True by done. cbn [length]. lia.
      * intros k [Hk|(r & Hr & Hrs & ->)]%Hdom.
        -- unfold incr in Hk. rewrite dom_insert_L in Hk.
           apply elem_of_union in Hk as [->%elem_of_singleton|Hk];
             [|by left].
           right. exists (path, line_num, line).
           split; [apply list_elem_of_here|done].
        -- right. exists r. split; [by apply list_elem_of_further|done].
      * intros k. rewrite Hcount. unfold incr.
        destruct (decide (split_slash_head path = k)) as [<-|Hne].
        -- rewrite filter_cons_True by done. rewrite lookup_insert_eq.
           cbn [length from_option]. unfold id. lia.
        -- rewrite filter_cons_False by (simpl; naive_solver).
           by rewrite lookup_insert_ne.
    + split; [|split].
      * rewrite Hsum. rewrite filter_cons_False by (simpl; congruence). done.
      * intros k [Hk|(r & Hr & Hrs & ->)]%Hdom; [by left|].
        right. exists r. split; [by apply list_elem_of_further|done].
      * intros k. rewrite Hcount.
        rewrite filter_cons_False by (simpl; intros [? _]; congruence).
        done.
Qed.

(** X10: ['files'] is the number of distinct paths among the results; it
    is at most ['total_calls'], and zero only when there is no result. *)
Theorem analyze_api_usage_files (client_search : SearchFn)
    (api_function : string) (results : list MatchRecord) :
  client_search (symbol_args api_function 100) = Ok results →
  ∃ stats,
    result (analyze_api_usage client_search api_function) = Done stats
    ∧ files stats =
        Z.of_nat (size (list_to_set ((λ r : MatchRecord, r.1.1) <$> results)
                          : gset string))
    ∧ 0 ≤ files stats ≤ total_calls stats
    ∧ (files stats = 0 ↔ results = []).
Proof.
  intros Hok.
  unfold analyze_api_usage, result, bind, search. rewrite Hok. cbn beta iota.
  pose proof (usage_loop_files api_function results ∅ ∅ ∅) as Hfs.
  destruct (usage_loop api_function results (∅, ∅, ∅)) as [[fs dirs] pats].
  cbn [fst snd] in *. eexists. split; [reflexivity|]. cbn [files total_calls].
  rewrite (right_id_L ∅ (∪)) in Hfs. subst fs.
  split; [done|].
  pose proof (size_list_to_set_le ((λ r : MatchRecord, r.1.1) <$> results))
    as Hle.
  rewrite length_fmap in Hle. split; [lia|].
  destruct results as [|r results]; [done|]. split; [|done].
  rewrite fmap_cons, list_to_set_cons. intros Hz.
  assert (size ({[r.1.1]} ∪ list_to_set
            ((λ r : MatchRecord, r.1.1) <$> results) : gset string) = 0%nat)
    as Hsize by lia.
  apply size_empty_iff in Hsize. set_solver.
Qed.

Lemma analyze_api_usage_files_witness :
  ∃ stats,
    result (analyze_api_usage client_usage "createElement") = Done stats
    ∧ files stats =
        Z.of_nat (size (list_to_set
                          ((λ r : MatchRecord, r.1.1) <$> usage_results)
                          : gset string))
    ∧ 0 ≤ files stats ≤ total_calls stats
    ∧ (files stats = 0 ↔ usage_results = []).
Proof.
  apply (analyze_api_usage_files client_usage "createElement" usage_results).
  reflexivity.
Defined.

(** X11: the counts under ['directories'] add up to the number of results
    whose path contains a slash; every key is the part before the first
    slash of such a path and contains no slash itself; and the count of a
    key is the number of such results with that first part.  Results whose
    path has no slash are counted under no directory. *)
Theorem analyze_api_usage_directories (client_search : SearchFn)
    (api_function : string) (results : list MatchRecord) :
  client_search (symbol_args api_function 100) = Ok results →
  ∃ stats,
    result (analyze_api_usage client_search api_function) = Done stats
    ∧ sum_counts (directories stats) =
        Z.of_nat (length (filter
          (λ r : MatchRecord, contains "/" r.1.1 = true) results))
    ∧ (∀ k, k ∈ dom (directories stats) →
         contains "/" k = false
         ∧ ∃ r : MatchRecord,
             r ∈ results ∧ contains "/" r.1.1 = true
             ∧ k = split_slash_head r.1.1)
    ∧ (∀ k,
         default 0 (directories stats !! k) =
           Z.of_nat (length (filter
             (λ r : MatchRecord,
                contains "/" r.1.1 = true ∧ split_slash_head r.1.1 = k)
             results))).
Proof.
  intros Hok.
  unfold analyze_api_usage, result, bind, search. rewrite Hok. cbn beta iota.
  pose proof (usage_loop_directories api_function results ∅ ∅ ∅) as Hdirs.
  cbn zeta in Hdirs.
  destruct (usage_loop api_function results (∅, ∅, ∅)) as [[fs dirs] pats].
  cbn [fst snd] in *. destruct Hdirs as (Hsum & Hdom & Hcount).
  eexists. split; [reflexivity|]. cbn [directories].
  split; [by rewrite Hsum|]. split.
  - intros k [Hk|(r & Hr & Hslash & ->)]%Hdom; [set_solver|].
    split; [apply split_slash_head_no_slash|eauto].
  - intros k. by rewrite Hcount, lookup_empty.
Qed.

Lemma analyze_api_usage_directories_witness :
  ∃ stats,
    result (analyze_api_usage client_usage "createElement") = Done stats
    ∧ sum_counts (directories stats) =
        Z.of_nat (length (filter
          (λ r : MatchRecord, contains "/" r.1.1 = true) usage_results))
    ∧ (∀ k, k ∈ dom (directories stats) →
         contains "/" k = false
         ∧ ∃ r : MatchRecord,
             r ∈ usage_results ∧ contains "/" r.1.1 = true
             ∧ k = split_slash_head r.1.1)
    ∧ (∀ k,
         default 0 (directories stats !! k) =
           Z.of_nat (length (filter
             (λ r : MatchRecord,
                contains "/" r.1.1 = true ∧ split_slash_head r.1.1 = k)
             usage_results))).
Proof.
  apply (analyze_api_usage_directories client_usage "createElement"
           usage_results).
  reflexivity.
Defined.

(** ** [analyze_include_patterns] *)

Lemma count_of_cons (k : string) (item : string * Z) (d : list (string * Z)) :
  count_of k (item :: d) =
    (if decide (item.1 = k) then item.2 else 0) + count_of k d.
Proof.
  unfold count_of. destruct (decide (item.1 = k)) as [Heq|Hne].
  - by rewrite filter_cons_True.
  - by rewrite filter_cons_False.
Qed.

Lemma count_of_incr_item (k h : string) (d : list (string * Z)) :
  count_of k (incr_item h d) =
    count_of k d + (if decide (h = k) then 1 else 0).
Proof.
  induction d as [|[k' v] d IH].
  - simpl. rewrite count_of_cons. unfold count_of. simpl.
    destruct (decide (h = k)); lia.
  - cbn [incr_item]. destruct (decide (k' = h)) as [->|Hne].
    + rewrite !count_of_cons. simpl. destruct (decide (h = k)); lia.
    + rewrite !count_of_cons, IH. simpl. lia.
Qed.

Lemma sum_items_incr_item (h : string) (d : list (string * Z)) :
  sum_items (incr_item h d) = sum_items d + 1.
Proof.
  induction d as [|[k' v] d IH]; [done|]. cbn [incr_item].
  destruct (decide (k' = h)); unfold sum_items in *; simpl in *; lia.
Qed.

Lemma incr_item_keys (h : string) (d : list (string * Z)) :
  (incr_item h d).*1 = if decide (h ∈ d.*1) then d.*1 else d.*1 ++ [h].
Proof.
  induction d as [|[k' v] d IH].
  - destruct (decide (h ∈ ([] : list (string * Z)).*1)) as [Hin|_]; [|done].
    by apply elem_of_nil in Hin.
  - cbn [incr_item]. rewrite (fmap_cons fst (k', v) d). cbn [fst].
    destruct (decide (h ∈ k' :: d.*1)) as [Hin|Hnin];
      destruct (decide (k' = h)) as [->|Hne].
    + done.
    + rewrite fmap_cons, IH. cbn [fst].
      apply elem_of_cons in Hin as [->|Hin]; [done|].
      by rewrite decide_True.
    + exfalso. apply Hnin, list_elem_of_here.
    + rewrite fmap_cons, IH. cbn [fst].
      rewrite decide_False; [done|].
      intros Hin. apply Hnin. by apply list_elem_of_further.
Qed.

Lemma incr_item_NoDup (h : string) (d : list (string * Z)) :
  NoDup d.*1 → NoDup (incr_item h d).*1.
Proof.
  intros Hnd. rewrite incr_item_keys. case_decide; [done|].
  apply NoDup_app. split; [done|]. split; [|apply NoDup_singleton].
  intros x Hx ->%list_elem_of_singleton. done.
Qed.

Lemma incr_item_positive (h : string) (d : list (string * Z)) :
  Forall (λ item, 0 < item.2) d → Forall (λ item, 0 < item.2) (incr_item h d).
Proof.
  induction 1 as [|[k' v] d Hv Hd IH]; [by repeat constructor|].
  cbn [incr_item]. destruct (decide (k' = h)); constructor; simpl in *;
    try done; lia.
Qed.

Lemma count_of_absent (k : string) (d : list (string * Z)) :
  k ∉ d.*1 → count_of k d = 0.
Proof.
  induction d as [|[k' v] d IH]; [done|]. rewrite fmap_cons, count_of_cons.
  intros Hk. simpl in *. rewrite decide_False by set_solver.
  rewrite IH by set_solver. done.
Qed.

(** In a counter with distinct keys and positive counts, an item is a key
    with its count. *)
Lemma elem_of_counter (k : string) (n : Z) (d : list (string * Z)) :
  NoDup d.*1 → Forall (λ item, 0 < item.2) d →
  (k, n) ∈ d ↔ 0 < n ∧ count_of k d = n.
Proof.
  induction d as [|[k' v] d IH]; intros Hnd Hpos.
  - split; [by intros ?%elem_of_nil|]. unfold count_of. simpl. lia.
  - rewrite fmap_cons in Hnd. apply NoDup_cons in Hnd as [Hk' Hnd].
    apply Forall_cons in Hpos as [Hv Hpos]. simpl in *.
    rewrite elem_of_cons, count_of_cons, IH by done. simpl.
    destruct (decide (k' = k)) as [->|Hne].
    + rewrite (count_of_absent k d) by done. split.
      * intros [Heq|[? ?]]; [simplify_eq; lia|lia].
      * intros [? ?]. left. f_equal. lia.
    + split.
      * intros [Heq|[? ?]]; [by simplify_eq|]. split; lia.
      * intros [? ?]. right. split; lia.
Qed.

Lemma include_loop_spec (results : list MatchRecord) :
  ∀ d : list (string * Z),
  (NoDup d.*1 → NoDup (include_loop results d).*1)
  ∧ (Forall (λ item, 0 < item.2) d →
     Forall (λ item, 0 < item.2) (include_loop results d))
  ∧ (∀ h, count_of h (include_loop results d) =
            count_of h d + Z.of_nat (length (includes_of h results)))
  ∧ sum_items (include_loop results d) =
      sum_items d
      + Z.of_nat (length (filter
          (λ r : MatchRecord, is_Some (re_search_include r.2)) results)).
Proof.
  induction results as [|[[path line_num] line] results IH]; intros d.
  - simpl. split; [done|]. split; [done|]. split; [intros h|]; lia.
  - cbn [include_loop]. unfold includes_of in *.
    destruct (re_search_include line) as [header|] eqn:Hline.
    + destruct (IH (incr_item header d)) as (Hnd & Hpos & Hcount & Hsum).
      split; [auto using incr_item_NoDup|].
      split; [auto using incr_item_positive|]. split.
      * intros h. rewrite Hcount, count_of_incr_item.
        destruct (decide (header = h)) as [->|Hne].
        -- rewrite filter_cons_True by done. cbn [length]. lia.
        -- rewrite filter_cons_False by (simpl; congruence). lia.
      * rewrite Hsum, sum_items_incr_item.
        rewrite filter_cons_True by (simpl; rewrite Hline; eauto).
        cbn [length]. lia.
    + destruct (IH d) as (Hnd & Hpos & Hcount & Hsum).
      split; [done|]. split; [done|]. split.
      * intros h. rewrite Hcount.
        by rewrite filter_cons_False by (simpl; congruence).
      * rewrite Hsum.
        by rewrite filter_cons_False
          by (simpl; rewrite Hline; by intros [? [=]]).
Qed.

Lemma insert_by_count_perm (x : string * Z) (l : list (string * Z)) :
  insert_by_count x l ≡ₚ x :: l.
Proof.
  induction l as [|y l IH]; [done|]. simpl.
  destruct (x.2 <? y.2); [|done]. rewrite IH. apply Permutation_swap.
Qed.

Lemma sorted_by_count_perm (d : list (string * Z)) : sorted_by_count d ≡ₚ d.
Proof.
  induction d as [|x d IH]; [done|]. unfold sorted_by_count in *. simpl.
  by rewrite insert_by_count_perm, IH.
Qed.

Lemma insert_by_count_sorted (x : string * Z) (l : list (string * Z)) :
  StronglySorted (λ a b : string * Z, b.2 ≤ a.2) l →
  StronglySorted (λ a b : string * Z, b.2 ≤ a.2) (insert_by_count x l).
Proof.
  induction 1 as [|y l Hl IH Hy]; [by repeat constructor|]. simpl.
  destruct (x.2 <? y.2) eqn:Hxy.
  - constructor; [done|]. rewrite insert_by_count_perm.
    constructor; [lia|done].
  - constructor; [by constructor|]. constructor; [lia|].
    eapply Forall_impl; [exact Hy|]. simpl. intros. lia.
Qed.

Lemma sorted_by_count_sorted (d : list (string * Z)) :
  StronglySorted (λ a b : string * Z, b.2 ≤ a.2) (sorted_by_count d).
Proof.
  induction d as [|x d IH]; [constructor|].
  by apply insert_by_count_sorted.
Qed.

Lemma insert_by_count_stable (c : Z) (x : string * Z)
    (l : list (string * Z)) :
  filter (λ item : string * Z, item.2 = c) (insert_by_count x l) =
    filter (λ item : string * Z, item.2 = c) (x :: l).
Proof.
  induction l as [|y l IH]; [done|]. simpl.
  destruct (x.2 <? y.2) eqn:Hxy; [|done].
  destruct (decide (x.2 = c)) as [Hx|Hx].
  - rewrite (filter_cons_False _ y) by (simpl; lia). rewrite IH.
    rewrite !(filter_cons_True _ x) by done.
    by rewrite (filter_cons_False _ y) by (simpl; lia).
  - rewrite (filter_cons_False _ x (y :: l)) by done.
    rewrite (filter_cons_False _ x l) in IH by done.
    destruct (decide (y.2 = c)).
    + by rewrite !(filter_cons_True _ y), IH by done.
    + by rewrite !(filter_cons_False _ y), IH by done.
Qed.

Lemma sorted_by_count_stable (c : Z) (d : list (string * Z)) :
  filter (λ item : string * Z, item.2 = c) (sorted_by_count d) =
    filter (λ item : string * Z, item.2 = c) d.
Proof.
  induction d as [|x d IH]; [done|]. unfold sorted_by_count in *. simpl.
  rewrite insert_by_count_stable.
  destruct (decide (x.2 = c)).
  - by rewrite !(filter_cons_True _ x), IH by done.
  - by rewrite !(filter_cons_False _ x), IH by done.
Qed.

Lemma analyze_include_patterns_run (client_search : SearchFn)
    (directory : string) (limit : Z) :
  result (analyze_include_patterns client_search directory limit) =
    match client_search (include_args directory limit) with
    | Ok results => Done (sorted_by_count (include_loop results []))
    | Err e => Raised e
    end
  ∧ requests (analyze_include_patterns client_search directory limit) =
      [include_args directory limit].
Proof.
  unfold analyze_include_patterns, result, requests, bind, search, ret.
  cbn beta. by destruct (client_search _).
Qed.

(** X12: the items that [analyze_include_patterns] returns are ordered by
    count, largest first; no header occurs twice; and headers with the
    same count stay in the order in which the loop first met them. *)
Theorem analyze_include_patterns_sorted (client_search : SearchFn)
    (directory : string) (limit : Z) (results : list MatchRecord) :
  client_search (include_args directory limit) = Ok results →
  ∃ out,
    result (analyze_include_patterns client_search directory limit) = Done out
    ∧ StronglySorted (λ a b : string * Z, b.2 ≤ a.2) out
    ∧ NoDup out.*1
    ∧ out ≡ₚ include_loop results []
    ∧ ∀ c, filter (λ item : string * Z, item.2 = c) out =
           filter (λ item : string * Z, item.2 = c) (include_loop results []).
Proof.
  intros Hok.
  destruct (analyze_include_patterns_run client_search directory limit)
    as [-> _]. rewrite Hok. eexists. split; [done|].
  split; [apply sorted_by_count_sorted|]. split; [|split].
  - rewrite sorted_by_count_perm.
    apply (include_loop_spec results []). constructor.
  - apply sorted_by_count_perm.
  - intros c. apply sorted_by_count_stable.
Qed.

Lemma analyze_include_patterns_sorted_witness :
  ∃ out,
    result (analyze_include_patterns client_includes "dom/media" 50)
      = Done out
    ∧ StronglySorted (λ a b : string * Z, b.2 ≤ a.2) out
    ∧ NoDup out.*1
    ∧ out ≡ₚ include_loop include_results []
    ∧ ∀ c, filter (λ item : string * Z, item.2 = c) out =
           filter (λ item : string * Z, item.2 = c)
             (include_loop include_results []).
Proof.
  apply (analyze_include_patterns_sorted client_includes "dom/media" 50
           include_results).
  reflexivity.
Defined.

Lemma include_items (results : list MatchRecord) (h : string) (n : Z) :
  (h, n) ∈ sorted_by_count (include_loop results []) ↔
  0 < n ∧ n = Z.of_nat (length (includes_of h results)).
Proof.
  destruct (include_loop_spec results []) as (Hnd & Hpos & Hcount & _).
  rewrite sorted_by_count_perm.
  rewrite elem_of_counter by auto using NoDup_nil_2.
  rewrite Hcount. unfold count_of at 1. simpl. split; intros [? ?]; lia.
Qed.

(** X13: [analyze_include_patterns] sends one text search for [#include]
    under the directory.  An item [(h, n)] is returned exactly when [n] is
    the number, not zero, of result lines in which the pattern finds the
    header [h]; the counts add up to the number of result lines in which
    the pattern finds a header. *)
Theorem analyze_include_patterns_counts (client_search : SearchFn)
    (directory : string) (limit : Z) (results : list MatchRecord) :
  client_search (include_args directory limit) = Ok results →
  ∃ out,
    result (analyze_include_patterns client_search directory limit) = Done out
    ∧ requests (analyze_include_patterns client_search directory limit)
        = [include_args directory limit]
    ∧ (∀ h n, (h, n) ∈ out ↔
              0 < n ∧ n = Z.of_nat (length (includes_of h results)))
    ∧ sum_items out =
        Z.of_nat (length (filter
          (λ r : MatchRecord, is_Some (re_search_include r.2)) results)).
Proof.
  intros Hok.
  destruct (analyze_include_patterns_run client_search directory limit)
    as [-> ->]. rewrite Hok. eexists. split; [done|]. split; [done|].
  destruct (include_loop_spec results []) as (Hnd & Hpos & Hcount & Hsum).
  split; [apply include_items|].
  - transitivity (sum_items (include_loop results [])); [|by rewrite Hsum].
    generalize (sorted_by_count_perm (include_loop results [])).
    generalize (sorted_by_count (include_loop results [])).
    generalize (include_loop results []). clear.
    intros l2 l1 Hperm. unfold sum_items.
    induction Hperm; simpl in *; lia.
Qed.

Lemma analyze_include_patterns_counts_witness :
  ∃ out,
    result (analyze_include_patterns client_includes "dom/media" 50)
      = Done out
    ∧ requests (analyze_include_patterns client_includes "dom/media" 50)
        = [include_args "dom/media" 50]
    ∧ (∀ h n, (h, n) ∈ out ↔
              0 < n ∧ n = Z.of_nat (length (includes_of h include_results)))
    ∧ sum_items out =
        Z.of_nat (length (filter
          (λ r : MatchRecord, is_Some (re_search_include r.2))
          include_results)).
Proof.
  apply (analyze_include_patterns_counts client_includes "dom/media" 50
           include_results).
  reflexivity.
Defined.

(** X14: each of the methods that send a single search raises exactly when
    the client raises for that search, with the same exception, and
    otherwise returns. *)
Theorem single_search_methods_raise (client_search : SearchFn) (e : Exn) :
  (∀ interface limit,
     result (find_implementations client_search interface limit) = Raised e
     ↔ client_search (symbol_cpp_args interface limit) = Err e)
  ∧ (∀ api_function,
       result (analyze_api_usage client_search api_function) = Raised e
       ↔ client_search (symbol_args api_function 100) = Err e)
  ∧ (∀ directory limit,
       result (analyze_include_patterns client_search directory limit)
         = Raised e
       ↔ client_search (include_args directory limit) = Err e).
Proof.
  split; [|split].
  - intros interface limit.
    destruct (find_implementations_run client_search interface limit)
      as [-> _].
    destruct (client_search _); split; intros [=]; by subst.
  - intros api_function.
    unfold analyze_api_usage, result, bind, search. cbn beta.
    destruct (client_search _) as [results|e']; cbn beta iota.
    + destruct (usage_loop _ _ _) as [[fs dirs] pats]. by split.
    + split; intros [=]; by subst.
  - intros directory limit.
    destruct (analyze_include_patterns_run client_search directory limit)
      as [-> _].
    destruct (client_search _); split; intros [=]; by subst.
Qed.

(** ** The include pattern *)

Lemma header_upto_close_spec (s : string) : ∀ h,
  header_upto_close s = Some h →
  ∃ closer rest,
    s = h +:+ String closer rest
    ∧ Forall (λ c, is_close c = false) (chars h)
    ∧ is_close closer = true.
Proof.
  induction s as [|c s IH]; intros h; [done|]. cbn [header_upto_close].
  destruct (is_close c) eqn:Hc.
  - intros [=<-]. exists c, s. by repeat split.
  - destruct (header_upto_close s) as [h'|]; [|done]. intros [=<-].
    destruct (IH h' eq_refl) as (closer & rest & -> & Hall & Hcloser).
    exists closer, rest. simpl. split; [done|]. split; [by constructor|done].
Qed.

Lemma match_spaces_header_spec (s : string) : ∀ h,
  match_spaces_header s = Some h →
  ∃ ws opener closer rest,
    s = ws +:+ String opener h +:+ String closer rest
    ∧ Forall (λ c, is_space c = true) (chars ws)
    ∧ is_open opener = true
    ∧ h ≠ EmptyString
    ∧ Forall (λ c, is_close c = false) (chars h)
    ∧ is_close closer = true.
Proof.
  induction s as [|c s IH]; intros h; [done|]. cbn [match_spaces_header].
  assert (match_open_header (String c s) = Some h →
    ∃ ws opener closer rest,
      String c s = ws +:+ String opener h +:+ String closer rest
      ∧ Forall (λ c, is_space c = true) (chars ws)
      ∧ is_open opener = true
      ∧ h ≠ EmptyString
      ∧ Forall (λ c, is_close c = false) (chars h)
      ∧ is_close closer = true) as Hopen.
  { cbn [match_open_header]. destruct (is_open c) eqn:Hc; [|done].
    unfold match_header.
    destruct (header_upto_close s) as [[|a h']|] eqn:Hs; [done| |done].
    intros [=<-].
    apply header_upto_close_spec in Hs as (closer & rest & -> & Hall & Hcl).
    exists EmptyString, c, closer, rest. simpl.
    split; [done|]. split; [constructor|]. by repeat split. }
  destruct (is_space c) eqn:Hc; [|done].
  destruct (match_spaces_header s) as [h'|] eqn:Hs; [|done].
  intros [=->].
  destruct (IH h eq_refl)
    as (ws & opener & closer & rest & -> & Hws & Hrest).
  exists (String c ws), opener, closer, rest. simpl.
  split; [done|]. split; [by constructor|done].
Qed.

(** What the include pattern returns is a header of the line. *)
Lemma re_search_include_sound (line : string) : ∀ h,
  re_search_include line = Some h →
  ∃ before ws opener closer after,
    include_occurrence line before ws opener h closer after.
Proof.
  assert (∀ s h, match_include_at s = Some h →
    ∃ ws opener closer after,
      include_occurrence s EmptyString ws opener h closer after) as Hat.
  { intros s h. unfold match_include_at.
    destruct (strip_prefix "#include" s) as [[|c rest]|] eqn:Hp;
      [done| |done].
    apply strip_prefix_Some in Hp as ->.
    destruct (is_space c) eqn:Hc; [|done].
    intros (ws & opener & closer & after & -> & Hws & Hrest)
      %match_spaces_header_spec.
    exists (String c ws), opener, closer, after.
    unfold include_occurrence, is_blank. simpl.
    split; [done|]. split; [|done]. split; [done|by constructor]. }
  induction line as [|c line IH]; intros h; cbn [re_search_include].
  - destruct (match_include_at EmptyString) eqn:Hm; [|done].
    intros [=->]. apply Hat in Hm as (ws & opener & closer & after & Hocc).
    by exists EmptyString, ws, opener, closer, after.
  - destruct (match_include_at (String c line)) eqn:Hm.
    + intros [=->]. apply Hat in Hm as (ws & opener & closer & after & Hocc).
      by exists EmptyString, ws, opener, closer, after.
    + intros (before & ws & opener & closer & after & -> & Hrest)%IH.
      exists (String c before), ws, opener, closer, after. by split.
Qed.

(** X15: every header that [analyze_include_patterns] returns stands in
    one of the result lines, after [#include], whitespace and an opening
    [<] or quote and before a closing [>] or quote; it is not empty and
    holds neither [>] nor a quote. *)
Theorem analyze_include_patterns_headers (client_search : SearchFn)
    (directory : string) (limit : Z) (results : list MatchRecord) :
  client_search (include_args directory limit) = Ok results →
  ∃ out,
    result (analyze_include_patterns client_search directory limit) = Done out
    ∧ Forall
        (λ item : string * Z,
           ∃ r : MatchRecord,
             r ∈ results
             ∧ ∃ before ws opener closer after,
                 include_occurrence r.2 before ws opener item.1 closer after)
        out.
Proof.
  intros Hok.
  destruct (analyze_include_patterns_run client_search directory limit)
    as [-> _]. rewrite Hok. eexists. split; [done|].
  apply Forall_forall. intros [h n] [Hn Hlen]%include_items. simpl.
  destruct (includes_of h results) as [|r rs] eqn:Hrs; [simpl in *; lia|].
  assert (r ∈ includes_of h results) as Hr
    by (rewrite Hrs; apply list_elem_of_here).
  unfold includes_of in Hr. apply list_elem_of_filter in Hr as [Hh Hr].
  exists r. split; [done|]. by apply re_search_include_sound.
Qed.

Lemma analyze_include_patterns_headers_witness :
  ∃ out,
    result (analyze_include_patterns client_includes "dom/media" 50)
      = Done out
    ∧ Forall
        (λ item : string * Z,
           ∃ r : MatchRecord,
             r ∈ include_results
             ∧ ∃ before ws opener closer after,
                 include_occurrence r.2 before ws opener item.1 closer after)
        out.
Proof.
  apply (analyze_include_patterns_headers client_includes "dom/media" 50
           include_results).
  reflexivity.
Defined.

(** ** [print_hierarchy] *)

Lemma Hierarchy_ind_Forall (P : Hierarchy → Prop) :
  (∀ c ds, Forall P ds → P (Node c ds)) → ∀ h, P h.
Proof.
  intros Hnode. fix IH 1. intros [c ds]. apply Hnode.
  induction ds as [|d ds IHds]; constructor; [apply IH|exact IHds].
Qed.

(** X16: [print_hierarchy] prints one line for each node of the tree, the
    root first; every line is an indentation of two spaces per level, the
    branch mark and a class name, and no line is indented less than the
    root. *)
Theorem print_hierarchy_lines (branch : string) (h : Hierarchy) (indent : Z) :
  length (print_hierarchy branch h indent) = node_count h
  ∧ head (print_hierarchy branch h indent)
      = Some (repeat_string "  " (Z.to_nat indent) +:+ branch +:+ class_of h)
  ∧ Forall
      (λ line,
         ∃ (n : nat) (c : string),
           line = repeat_string "  " n +:+ branch +:+ c
           ∧ (Z.to_nat indent ≤ n)%nat)
      (print_hierarchy branch h indent).
Proof.
  revert indent. induction h as [c ds IH] using Hierarchy_ind_Forall.
  intros indent. cbn [print_hierarchy node_count class_of head length].
  split; [|split; [done|]].
  - f_equal. induction IH as [|d ds Hd _ IHds]; [done|].
    cbn [flat_map foldr]. rewrite length_app, IHds.
    by rewrite (proj1 (Hd (indent + 1))).
  - constructor; [by exists (Z.to_nat indent), c|].
    induction IH as [|d ds Hd _ IHds]; [constructor|].
    cbn [flat_map]. apply Forall_app. split; [|done].
    destruct (Hd (indent + 1)) as (_ & _ & Hlines).
    eapply Forall_impl; [exact Hlines|].
    intros line (n & c' & -> & Hn). exists n, c'. split; [done|lia].
Qed.

(** ** The class extraction of [advanced_example] *)

Lemma split_ws_tokens (s : string) :
  Forall (λ t, t ≠ EmptyString
               ∧ Forall (λ c, is_space c = false) (chars t))
    (split_ws s).
Proof.
  induction s as [|c s IH]; [constructor|]. cbn [split_ws].
  destruct (is_space c) eqn:Hc; [done|].
  destruct s as [|c' s'].
  - repeat constructor; done.
  - destruct (is_space c') eqn:Hc'.
    + constructor; [|done]. split; [done|]. by repeat constructor.
    + destruct (split_ws (String c' s')) as [|t ts].
      * repeat constructor; done.
      * apply Forall_cons in IH as [[_ Ht] Hts].
        constructor; [|done]. split; [done|]. by constructor.
Qed.

Lemma rstrip_colon_chars (s : string) :
  (∀ P : ascii → Prop, Forall P (chars s) → Forall P (chars (rstrip_colon s)))
  ∧ last (chars (rstrip_colon s)) ≠ Some ":"%char.
Proof.
  induction s as [|c s [IHall IHlast]]; [done|]. cbn [rstrip_colon].
  destruct (rstrip_colon s) as [|a r] eqn:Hr.
  - destruct (Ascii.eqb c ":") eqn:Hc.
    + split; [intros; constructor|done].
    + split.
      * intros P [Hc' _]%Forall_cons. by repeat constructor.
      * simpl. intros [=->]. by rewrite Ascii.eqb_refl in Hc.
  - split.
    + intros P [Hc' Hs]%Forall_cons. constructor; [done|by apply IHall].
    + exact IHlast.
Qed.

Lemma collect_audio_nodes_omap (results : list MatchRecord) :
  ∀ acc,
  collect_audio_nodes results acc = acc ++ omap audio_node_of results.
Proof.
  induction results as [|[[path line_num] line] results IH]; intros acc.
  - by rewrite app_nil_r.
  - cbn [collect_audio_nodes omap list_omap]. unfold audio_node_of.
    cbn [fst snd].
    destruct (contains "class " line && contains ": public AudioNode" line);
      [|apply IH].
    cbn zeta. destruct (bool_decide _); [|apply IH].
    destruct (_ !! _); [|apply IH].
    by rewrite IH, <-app_assoc.
Qed.

(** X17: every node that the loop of [advanced_example] collects comes
    from a result whose line contains [class ] and [: public AudioNode];
    its name is the word that follows the first word [class] of that line
    without its trailing colons, so it holds no whitespace and does not end
    in a colon; and there is at most one node for each result. *)
Theorem collect_audio_nodes_names (results : list MatchRecord) :
  Forall
    (λ node,
       ∃ r : MatchRecord,
         r ∈ results
         ∧ node_path node = r.1.1 ∧ node_line node = r.1.2
         ∧ contains "class " r.2 = true
         ∧ contains ": public AudioNode" r.2 = true
         ∧ (∃ part, split_ws r.2 !! (index_of "class" (split_ws r.2) + 1)%nat
                      = Some part
                    ∧ node_name node = rstrip_colon part)
         ∧ Forall (λ c, is_space c = false) (chars (node_name node))
         ∧ last (chars (node_name node)) ≠ Some ":"%char)
    (collect_audio_nodes results [])
  ∧ (length (collect_audio_nodes results []) ≤ length results)%nat.
Proof.
  rewrite collect_audio_nodes_omap, app_nil_l. split.
  - apply Forall_forall. intros node (r & Hr & Hnode)%list_elem_of_omap.
    exists r. split; [done|]. unfold audio_node_of in Hnode.
    destruct (contains "class " r.2) eqn:Hclass; [|done].
    destruct (contains ": public AudioNode" r.2) eqn:Hpublic; [|done].
    cbn [andb] in Hnode. cbn zeta in Hnode.
    destruct (bool_decide _); [|done].
    destruct (_ !! _) as [part|] eqn:Hpart; [|done].
    injection Hnode as <-. cbn [node_name node_path node_line].
    do 4 (split; [done|]). split; [eauto|].
    split; [|apply rstrip_colon_chars].
    apply rstrip_colon_chars.
    apply list_elem_of_lookup_2 in Hpart.
    pose proof (split_ws_tokens r.2) as Htokens.
    rewrite Forall_forall in Htokens. by apply Htokens.
  - induction results as [|r results IH]; [done|].
    cbn [omap list_omap length]. destruct (audio_node_of r); simpl; lia.
Qed.

(** ** Deeper traversals extend shallower ones *)

Section Deeper.

Variable client_search : SearchFn.

Local Abbreviation gch := (get_class_hierarchy client_search).
Local Abbreviation child := (expand_child client_search).
Local Abbreviation query := (λ c : string, symbol_cpp_args c 30).



End Deeper.

